(** * PicoMemPerf: PSRAM bring-up and memory benchmark (src/PicoMemPerf.c)

    A shallow embedding of the C program and the proofs of its specification.

    Conventions, shared by all the definitions below.
    - A C [int] is a [Z] kept in the signed 32-bit range by [Word.s32]; a
      [uint32_t] by [Word.u32]; a [uint8_t] by [Word.u8].  Every arithmetic
      operation of the source that can leave the range of its C type is
      followed by the corresponding wrap-around.
    - C integer division truncates toward zero: it is [Z.quot], not [Z.div].
    - Memory-mapped registers are volatile: what a read returns is decided by
      the hardware, so reads take their value from an input list carried by
      the machine state, and every access is appended to a log.
    - Ordinary memory is one 32-bit word per address.  The variables the
      benchmark assigns, [s_value] and the [result] fields of the test
      table, are words of that memory, at addresses that are parameters;
      an assignment to them is a store like any other.
    - Part I holds the definitions, Part II the theorems of the
      specification, Part III further properties of the program. *)

From Stdlib Require Import ZArith Lia Bool List String.
From Stdlib Require Import Znumtheory Permutation.
Import ListNotations.
Open Scope Z_scope.

(* ===================================================================== *)
(** * Part I: the program                                                 *)
(* ===================================================================== *)

(** ** Machine integers *)
Module Word.

Definition INT_MAX : Z := 2147483647.

(** Value of a [uint8_t] after a conversion or an operation. *)
Definition u8 (z : Z) : Z := z mod 2 ^ 8.

(** Value of a [uint32_t] / [size_t] (32 bits on the RP2350). *)
Definition u32 (z : Z) : Z := z mod 2 ^ 32.

(** Value of an [int]: two's complement wrap-around into [-2^31, 2^31). *)
Definition s32 (z : Z) : Z := (z + 2 ^ 31) mod 2 ^ 32 - 2 ^ 31.

(** C's [~x] on a 32-bit unsigned operand. *)
Definition not32 (z : Z) : Z := u32 (Z.lnot z).

End Word.

(** ** TimingDeriver: the arithmetic at the head of [setup_psram] *)
Module Timing.
Import Word.

(** [const int max_psram_freq = 133000000;] *)
Definition max_psram_freq : Z := 133000000.

(** Lines 101-104, with the local constant [max_psram_freq] abstracted:
    [[
    int clockDivider = (clock_hz + max_psram_freq - 1) / max_psram_freq;
    if (clockDivider == 1 && clock_hz > 100000000) clockDivider = 2;
    ]] *)
Definition clock_divider_for (max_freq clock_hz : Z) : Z :=
  let clockDivider := Z.quot (s32 (s32 (clock_hz + max_freq) - 1)) max_freq in
  if (clockDivider =? 1) && (clock_hz >? 100000000) then 2 else clockDivider.

(** The divider as [setup_psram] computes it. *)
Definition clockDivider (clock_hz : Z) : Z :=
  clock_divider_for max_psram_freq clock_hz.

(** Lines 105-108:
    [[
    int rxdelay = clockDivider;
    if (clock_hz / clockDivider > 100000000) rxdelay += 1;
    ]] *)
Definition rxdelay (clock_hz clockDivider : Z) : Z :=
  if Z.quot clock_hz clockDivider >? 100000000
  then s32 (clockDivider + 1) else clockDivider.

(** Line 112: [const int clock_period_fs = 1000000000000000ll / clock_hz;]
    The quotient is a [long long]; storing it in an [int] keeps its low 32
    bits. *)
Definition clock_period_fs (clock_hz : Z) : Z :=
  s32 (Z.quot 1000000000000000 clock_hz).

(** Line 113: [const int maxSelect = (125 * 1000000) / clock_period_fs;] *)
Definition maxSelect (clock_hz : Z) : Z :=
  Z.quot (125 * 1000000) (clock_period_fs clock_hz).

(** Line 114:
    [[
    const int minDeselect =
      (18 * 1000000 + (clock_period_fs - 1)) / clock_period_fs
      - (clockDivider + 1) / 2;
    ]] *)
Definition minDeselect (clock_hz clockDivider : Z) : Z :=
  let p := clock_period_fs clock_hz in
  s32 (s32 (Z.quot (s32 (18 * 1000000 + s32 (p - 1))) p)
       - Z.quot (s32 (clockDivider + 1)) 2).

(** The specification's ceiling of the exact quotient [a / b]. *)
Definition ceil_div (a b : Z) : Z := - ((- a) / b).

(** The specification's divider: the ceiling, forced to 2 when the ceiling
    is 1 and the system clock exceeds 100 MHz. *)
Definition spec_divider (max_freq clock_hz : Z) : Z :=
  let ideal := ceil_div clock_hz max_freq in
  if (ideal =? 1) && (clock_hz >? 100000000) then 2 else ideal.

(** The forced-divider branch of the specification. *)
Definition forced (max_freq clock_hz : Z) : Prop :=
  ceil_div clock_hz max_freq = 1 /\ clock_hz > 100000000.

(** The specification's deselect window, the clock period being the integer
    number of femtoseconds [10^15 / clock_hz]. *)
Definition spec_minDeselect (clock_hz clockDivider : Z) : Z :=
  ceil_div 18000000 (1000000000000000 / clock_hz) - (clockDivider + 1) / 2.

End Timing.

(** ** Device bring-up: [setup_psram] and the hardware it drives *)
Module Psram.
Import Word.

(** *** Constants of the source file *)
Definition RP2350_XIP_CSI_PIN : Z := 47.
Definition PSRAM_CMD_QUAD_END : Z := 0xF5.
Definition PSRAM_CMD_QUAD_ENABLE : Z := 0x35.
Definition PSRAM_CMD_READ_ID : Z := 0x9F.
Definition PSRAM_CMD_RSTEN : Z := 0x66.
Definition PSRAM_CMD_RST : Z := 0x99.
Definition PSRAM_CMD_QUAD_READ : Z := 0xEB.
Definition PSRAM_CMD_QUAD_WRITE : Z := 0x38.
Definition PSRAM_CMD_NOOP : Z := 0xFF.
Definition PSRAM_CMD_LINEAR_TOGGLE : Z := 0xC0.
Definition PSRAM_ID : Z := 0x5D.

(** *** Constants of the SDK headers

    [hardware/structs/qmi.h], [hardware/structs/xip_ctrl.h] and the GPIO
    header are included by the source but are not part of it: the values of
    their macros are parameters of the model.  Every theorem below holds for
    all values of these fields. *)
Class SdkConstants : Type := {
  GPIO_FUNC_XIP_CS1 : Z;
  QMI_DIRECT_CSR_CLKDIV_LSB : Z;
  QMI_DIRECT_CSR_EN_BITS : Z;
  QMI_DIRECT_CSR_BUSY_BITS : Z;
  QMI_DIRECT_CSR_ASSERT_CS1N_BITS : Z;
  QMI_DIRECT_CSR_TXEMPTY_BITS : Z;
  QMI_DIRECT_TX_OE_BITS : Z;
  QMI_DIRECT_TX_IWIDTH_VALUE_Q : Z;
  QMI_DIRECT_TX_IWIDTH_LSB : Z;
  QMI_M1_TIMING_PAGEBREAK_VALUE_1024 : Z;
  QMI_M1_TIMING_PAGEBREAK_LSB : Z;
  QMI_M1_TIMING_COOLDOWN_LSB : Z;
  QMI_M1_TIMING_RXDELAY_LSB : Z;
  QMI_M1_TIMING_MAX_SELECT_LSB : Z;
  QMI_M1_TIMING_MIN_DESELECT_LSB : Z;
  QMI_M1_TIMING_CLKDIV_LSB : Z;
  QMI_M1_RFMT_PREFIX_WIDTH_VALUE_Q : Z;
  QMI_M1_RFMT_PREFIX_WIDTH_LSB : Z;
  QMI_M1_RFMT_ADDR_WIDTH_VALUE_Q : Z;
  QMI_M1_RFMT_ADDR_WIDTH_LSB : Z;
  QMI_M1_RFMT_SUFFIX_WIDTH_VALUE_Q : Z;
  QMI_M1_RFMT_SUFFIX_WIDTH_LSB : Z;
  QMI_M1_RFMT_DUMMY_WIDTH_VALUE_Q : Z;
  QMI_M1_RFMT_DUMMY_WIDTH_LSB : Z;
  QMI_M1_RFMT_DUMMY_LEN_VALUE_24 : Z;
  QMI_M1_RFMT_DUMMY_LEN_LSB : Z;
  QMI_M1_RFMT_DATA_WIDTH_VALUE_Q : Z;
  QMI_M1_RFMT_DATA_WIDTH_LSB : Z;
  QMI_M1_RFMT_PREFIX_LEN_VALUE_8 : Z;
  QMI_M1_RFMT_PREFIX_LEN_LSB : Z;
  QMI_M1_RFMT_SUFFIX_LEN_VALUE_NONE : Z;
  QMI_M1_RFMT_SUFFIX_LEN_LSB : Z;
  QMI_M1_WFMT_PREFIX_WIDTH_VALUE_Q : Z;
  QMI_M1_WFMT_PREFIX_WIDTH_LSB : Z;
  QMI_M1_WFMT_ADDR_WIDTH_VALUE_Q : Z;
  QMI_M1_WFMT_ADDR_WIDTH_LSB : Z;
  QMI_M1_WFMT_SUFFIX_WIDTH_VALUE_Q : Z;
  QMI_M1_WFMT_SUFFIX_WIDTH_LSB : Z;
  QMI_M1_WFMT_DUMMY_WIDTH_VALUE_Q : Z;
  QMI_M1_WFMT_DUMMY_WIDTH_LSB : Z;
  QMI_M1_WFMT_DUMMY_LEN_VALUE_NONE : Z;
  QMI_M1_WFMT_DUMMY_LEN_LSB : Z;
  QMI_M1_WFMT_DATA_WIDTH_VALUE_Q : Z;
  QMI_M1_WFMT_DATA_WIDTH_LSB : Z;
  QMI_M1_WFMT_PREFIX_LEN_VALUE_8 : Z;
  QMI_M1_WFMT_PREFIX_LEN_LSB : Z;
  QMI_M1_WFMT_SUFFIX_LEN_VALUE_NONE : Z;
  QMI_M1_WFMT_SUFFIX_LEN_LSB : Z;
  XIP_CTRL_WRITABLE_M1_BITS : Z
}.

(** *** The machine: registers, interrupt mask, log *)

(** The registers of [qmi_hw] and [xip_ctrl_hw] that the source touches. *)
Inductive reg : Type :=
| direct_csr | direct_tx | direct_rx
| m1_timing | m1_rfmt | m1_rcmd | m1_wfmt | m1_wcmd
| xip_ctrl.

(** What the program does to the world outside its own variables. *)
Inductive event : Type :=
| gpio_set_function (pin fn : Z)
| printf (format : string) (args : list Z)
| irq_save_disable
| irq_restore (status : bool)
| reg_read (r : reg) (v : Z)
| reg_write (r : reg) (v : Z)
| nop.

(** [irq_off]: interrupts are globally disabled (PRIMASK set).
    [inputs]: the values the hardware will return to the coming register
    reads, in order.  [log]: the events so far, oldest first, each with the
    interrupt mask in force when it happened. *)
Record hw : Type := mk_hw {
  irq_off : bool;
  inputs : list Z;
  log : list (bool * event)
}.

(** A computation runs on the machine and either completes with a value or
    is still waiting for the hardware when the known inputs end ([None]). *)
Definition M (A : Type) : Type := hw -> option A * hw.

Definition ret {A} (a : A) : M A := fun s => (Some a, s).

Definition bind {A B} (m : M A) (f : A -> M B) : M B :=
  fun s => match m s with
           | (Some a, s') => f a s'
           | (None, s') => (None, s')
           end.

Declare Scope hw_scope.
Delimit Scope hw_scope with hw.
Notation "x <- m ;; k" := (bind m (fun x => k))
  (at level 61, m at next level, right associativity) : hw_scope.
Notation "m ;; k" := (bind m (fun _ => k))
  (at level 61, right associativity) : hw_scope.
Local Open Scope hw_scope.

Definition emit (e : event) : M unit :=
  fun s => (Some tt, mk_hw (irq_off s) (inputs s) (log s ++ [(irq_off s, e)])).

(** A volatile load: the hardware supplies the 32-bit value. *)
Definition read (r : reg) : M Z :=
  fun s => match inputs s with
           | [] => (None, s)
           | v :: rest =>
               (Some (u32 v),
                mk_hw (irq_off s) rest
                      (log s ++ [(irq_off s, reg_read r (u32 v))]))
           end.

(** A volatile 32-bit store. *)
Definition write (r : reg) (v : Z) : M unit := emit (reg_write r (u32 v)).

(** [r |= bits;] and [r &= ~(bits);] are a load followed by a store. *)
Definition set_bits (r : reg) (bits : Z) : M unit :=
  v <- read r ;; write r (Z.lor v bits).

Definition clear_bits (r : reg) (bits : Z) : M unit :=
  v <- read r ;; write r (Z.land v (not32 bits)).

(** The SDK's [save_and_disable_interrupts]: returns the mask in force and
    disables interrupts. *)
Definition save_and_disable_interrupts : M bool :=
  fun s => (Some (irq_off s),
            mk_hw true (inputs s) (log s ++ [(irq_off s, irq_save_disable)])).

(** The SDK's [restore_interrupts]: puts back a saved mask. *)
Definition restore_interrupts (status : bool) : M unit :=
  fun s => (Some tt,
            mk_hw status (inputs s)
                  (log s ++ [(irq_off s, irq_restore status)])).

(** [while (again(r)) {}]: one load per turn of the loop.  The loop ends at
    the first value for which [again] is false; if the known inputs end
    before that, the program is still spinning. *)
Fixpoint spin (r : reg) (again : Z -> bool) (pending : list Z) (s : hw)
  : option unit * hw :=
  match pending with
  | [] => (None, s)
  | v :: rest =>
      let s' := mk_hw (irq_off s) rest
                      (log s ++ [(irq_off s, reg_read r (u32 v))]) in
      if again (u32 v) then spin r again rest s' else (Some tt, s')
  end.

Definition wait_while (r : reg) (again : Z -> bool) : M unit :=
  fun s => spin r again (inputs s) s.

(** [for (i = start; ...; i++) acc = body(i, acc);] with a constant number
    of turns. *)
Fixpoint for_loop {S : Type} (turns : nat) (i : Z) (body : Z -> S -> M S)
  (acc : S) : M S :=
  match turns with
  | O => ret acc
  | Datatypes.S k => acc' <- body i acc ;; for_loop k (i + 1) body acc'
  end.

(** Lines 251-264: the capacity from the extended id.
    [[
    psram_size = 1024 * 1024;
    uint8_t size_id = eid >> 5;
    if (eid == 0x26 || size_id == 2) psram_size *= 8;
    else if (size_id == 0) psram_size *= 1;
    else if (size_id == 1) psram_size *= 4;
    ]] *)
Definition psram_size_of (eid : Z) : Z :=
  let psram_size := 1024 * 1024 in
  let size_id := u8 (Z.shiftr eid 5) in
  if (eid =? 0x26) || (size_id =? 2) then u32 (psram_size * 8)
  else if size_id =? 0 then u32 (psram_size * 1)
  else if size_id =? 1 then u32 (psram_size * 4)
  else psram_size.

(** The specification's multiplier, from the three top bits of the byte. *)
Definition top3 (eid : Z) : Z :=
  4 * Z.b2z (Z.testbit eid 7) + 2 * Z.b2z (Z.testbit eid 6)
  + Z.b2z (Z.testbit eid 5).

Definition spec_multiplier (eid : Z) : Z :=
  if (eid =? 0x26) || (top3 eid =? 2) then 8
  else if top3 eid =? 0 then 1
  else if top3 eid =? 1 then 4
  else 1.

Section WithSdk.
Context {sdk : SdkConstants}.

Definition busy (csr : Z) : bool :=
  negb (Z.land csr QMI_DIRECT_CSR_BUSY_BITS =? 0).

Definition tx_not_empty (csr : Z) : bool :=
  Z.land csr QMI_DIRECT_CSR_TXEMPTY_BITS =? 0.

(** Lines 120-136: enter direct mode and send the quad-mode exit. *)
Definition exit_quad : M unit :=
  write direct_csr
        (Z.lor (Z.shiftl 30 QMI_DIRECT_CSR_CLKDIV_LSB) QMI_DIRECT_CSR_EN_BITS) ;;
  wait_while direct_csr busy ;;
  set_bits direct_csr QMI_DIRECT_CSR_ASSERT_CS1N_BITS ;;
  write direct_tx
        (Z.lor (Z.lor QMI_DIRECT_TX_OE_BITS
                      (Z.shiftl QMI_DIRECT_TX_IWIDTH_VALUE_Q
                                QMI_DIRECT_TX_IWIDTH_LSB))
               PSRAM_CMD_QUAD_END) ;;
  wait_while direct_csr busy ;;
  _ <- read direct_rx ;;
  clear_bits direct_csr QMI_DIRECT_CSR_ASSERT_CS1N_BITS.

(** Lines 142-170: one turn of the identification loop; the accumulator
    is the pair [(kgd, eid)] of [uint8_t]. *)
Definition read_id_turn (i : Z) (ids : Z * Z) : M (Z * Z) :=
  (if i =? 0 then write direct_tx PSRAM_CMD_READ_ID
   else write direct_tx PSRAM_CMD_NOOP) ;;
  wait_while direct_csr tx_not_empty ;;
  wait_while direct_csr busy ;;
  rx <- read direct_rx ;;
  if i =? 5 then ret (u8 rx, snd ids)
  else if i =? 6 then ret (fst ids, u8 rx)
  else ret ids.

(** Lines 138-173: read the identity bytes and leave direct mode. *)
Definition read_id : M (Z * Z) :=
  set_bits direct_csr QMI_DIRECT_CSR_ASSERT_CS1N_BITS ;;
  ids <- for_loop 7 0 read_id_turn (0, 0) ;;
  clear_bits direct_csr
             (Z.lor QMI_DIRECT_CSR_ASSERT_CS1N_BITS QMI_DIRECT_CSR_EN_BITS) ;;
  ret ids.

(** Lines 192-220: one turn of the reset / quad-enable loop. *)
Definition command_turn (i : Z) (_ : unit) : M unit :=
  set_bits direct_csr QMI_DIRECT_CSR_ASSERT_CS1N_BITS ;;
  (if i =? 0 then write direct_tx PSRAM_CMD_RSTEN
   else if i =? 1 then write direct_tx PSRAM_CMD_RST
   else if i =? 2 then write direct_tx PSRAM_CMD_QUAD_ENABLE
   else write direct_tx PSRAM_CMD_LINEAR_TOGGLE) ;;
  wait_while direct_csr busy ;;
  clear_bits direct_csr QMI_DIRECT_CSR_ASSERT_CS1N_BITS ;;
  for_loop 20 0 (fun _ _ => emit nop) tt ;;
  _ <- read direct_rx ;;
  ret tt.

(** Lines 183-222: direct mode again, the four commands, direct mode off. *)
Definition enable_quad : M unit :=
  write direct_csr
        (Z.lor (Z.shiftl 30 QMI_DIRECT_CSR_CLKDIV_LSB) QMI_DIRECT_CSR_EN_BITS) ;;
  wait_while direct_csr busy ;;
  for_loop 4 0 command_turn tt ;;
  clear_bits direct_csr
             (Z.lor QMI_DIRECT_CSR_ASSERT_CS1N_BITS QMI_DIRECT_CSR_EN_BITS).

Definition m1_timing_value (rxdelay maxSelect minDeselect clockDivider : Z) : Z :=
  Z.lor (Z.lor (Z.lor (Z.lor (Z.lor
    (Z.shiftl QMI_M1_TIMING_PAGEBREAK_VALUE_1024 QMI_M1_TIMING_PAGEBREAK_LSB)
    (Z.shiftl 1 QMI_M1_TIMING_COOLDOWN_LSB))
    (Z.shiftl rxdelay QMI_M1_TIMING_RXDELAY_LSB))
    (Z.shiftl maxSelect QMI_M1_TIMING_MAX_SELECT_LSB))
    (Z.shiftl minDeselect QMI_M1_TIMING_MIN_DESELECT_LSB))
    (Z.shiftl clockDivider QMI_M1_TIMING_CLKDIV_LSB).

Definition m1_rfmt_value : Z :=
  Z.lor (Z.lor (Z.lor (Z.lor (Z.lor (Z.lor (Z.lor
    (Z.shiftl QMI_M1_RFMT_PREFIX_WIDTH_VALUE_Q QMI_M1_RFMT_PREFIX_WIDTH_LSB)
    (Z.shiftl QMI_M1_RFMT_ADDR_WIDTH_VALUE_Q QMI_M1_RFMT_ADDR_WIDTH_LSB))
    (Z.shiftl QMI_M1_RFMT_SUFFIX_WIDTH_VALUE_Q QMI_M1_RFMT_SUFFIX_WIDTH_LSB))
    (Z.shiftl QMI_M1_RFMT_DUMMY_WIDTH_VALUE_Q QMI_M1_RFMT_DUMMY_WIDTH_LSB))
    (Z.shiftl QMI_M1_RFMT_DUMMY_LEN_VALUE_24 QMI_M1_RFMT_DUMMY_LEN_LSB))
    (Z.shiftl QMI_M1_RFMT_DATA_WIDTH_VALUE_Q QMI_M1_RFMT_DATA_WIDTH_LSB))
    (Z.shiftl QMI_M1_RFMT_PREFIX_LEN_VALUE_8 QMI_M1_RFMT_PREFIX_LEN_LSB))
    (Z.shiftl QMI_M1_RFMT_SUFFIX_LEN_VALUE_NONE QMI_M1_RFMT_SUFFIX_LEN_LSB).

Definition m1_wfmt_value : Z :=
  Z.lor (Z.lor (Z.lor (Z.lor (Z.lor (Z.lor (Z.lor
    (Z.shiftl QMI_M1_WFMT_PREFIX_WIDTH_VALUE_Q QMI_M1_WFMT_PREFIX_WIDTH_LSB)
    (Z.shiftl QMI_M1_WFMT_ADDR_WIDTH_VALUE_Q QMI_M1_WFMT_ADDR_WIDTH_LSB))
    (Z.shiftl QMI_M1_WFMT_SUFFIX_WIDTH_VALUE_Q QMI_M1_WFMT_SUFFIX_WIDTH_LSB))
    (Z.shiftl QMI_M1_WFMT_DUMMY_WIDTH_VALUE_Q QMI_M1_WFMT_DUMMY_WIDTH_LSB))
    (Z.shiftl QMI_M1_WFMT_DUMMY_LEN_VALUE_NONE QMI_M1_WFMT_DUMMY_LEN_LSB))
    (Z.shiftl QMI_M1_WFMT_DATA_WIDTH_VALUE_Q QMI_M1_WFMT_DATA_WIDTH_LSB))
    (Z.shiftl QMI_M1_WFMT_PREFIX_LEN_VALUE_8 QMI_M1_WFMT_PREFIX_LEN_LSB))
    (Z.shiftl QMI_M1_WFMT_SUFFIX_LEN_VALUE_NONE QMI_M1_WFMT_SUFFIX_LEN_LSB).

(** Lines 224-267: the map-mode configuration: timing register, read and
    write formats and commands, and the write-enable flag. *)
Definition configure_map_mode (rxdelay maxSelect minDeselect clockDivider : Z)
  : M unit :=
  write m1_timing (m1_timing_value rxdelay maxSelect minDeselect clockDivider) ;;
  write m1_rfmt m1_rfmt_value ;;
  write m1_rcmd PSRAM_CMD_QUAD_READ ;;
  write m1_wfmt m1_wfmt_value ;;
  write m1_wcmd PSRAM_CMD_QUAD_WRITE ;;
  set_bits xip_ctrl XIP_CTRL_WRITABLE_M1_BITS.

(** Lines 95-174 of [setup_psram]: pin function, timing derivation, and
    the first critical section, which ends with the identity bytes
    [(kgd, eid)] in hand.  [clk_sys_hz] is what [clock_get_hz(clk_sys)]
    returns. *)
Definition probe (psram_cs_pin clk_sys_hz : Z) : M (Z * Z) :=
  emit (gpio_set_function psram_cs_pin GPIO_FUNC_XIP_CS1) ;;
  let clock_hz := s32 clk_sys_hz in
  let clockDivider := Timing.clockDivider clock_hz in
  let maxSelect := Timing.maxSelect clock_hz in
  let minDeselect := Timing.minDeselect clock_hz clockDivider in
  emit (printf "Max Select: %d, Min Deselect: %d, clock divider: %d\n"
               [maxSelect; minDeselect; clockDivider]) ;;
  intr_stash <- save_and_disable_interrupts ;;
  exit_quad ;;
  ids <- read_id ;;
  restore_interrupts intr_stash ;;
  ret ids.

(** Lines 175-270 of [setup_psram]: the identity check and what follows
    it. *)
Definition bring_up (clk_sys_hz : Z) (ids : Z * Z) : M Z :=
  let psram_size := 0 in
  let kgd := fst ids in
  let eid := snd ids in
  let clock_hz := s32 clk_sys_hz in
  let clockDivider := Timing.clockDivider clock_hz in
  let rxdelay := Timing.rxdelay clock_hz clockDivider in
  let maxSelect := Timing.maxSelect clock_hz in
  let minDeselect := Timing.minDeselect clock_hz clockDivider in
  if negb (kgd =? PSRAM_ID) then
    emit (printf "Invalid PSRAM ID: %x\n" [kgd]) ;;
    ret psram_size
  else
    emit (printf "Valid PSRAM ID: %x\n" [kgd]) ;;
    intr_stash <- save_and_disable_interrupts ;;
    enable_quad ;;
    configure_map_mode rxdelay maxSelect minDeselect clockDivider ;;
    restore_interrupts intr_stash ;;
    emit (printf "PSRAM ID: %x %x\n" [kgd; eid]) ;;
    ret (psram_size_of eid).

(** [static size_t setup_psram(uint psram_cs_pin)]. *)
Definition setup_psram (psram_cs_pin clk_sys_hz : Z) : M Z :=
  ids <- probe psram_cs_pin clk_sys_hz ;;
  bring_up clk_sys_hz ids.


End WithSdk.

(** *** Classifying events *)

(** The event is an access to the bus controller ([qmi_hw]) or to the XIP
    control block it serves. *)
Definition touches_bus (e : event) : bool :=
  match e with
  | reg_read _ _ | reg_write _ _ => true
  | _ => false
  end.

(** The event is one of the map-mode configuration steps: a store to the
    per-device timing, format or command registers, or to the control
    register holding the write-enable flag. *)
Definition configures_map_mode (e : event) : bool :=
  match e with
  | reg_write (m1_timing | m1_rfmt | m1_rcmd | m1_wfmt | m1_wcmd | xip_ctrl) _ =>
      true
  | _ => false
  end.

(** A logged event respects the critical-section rule: if it touches the
    bus then interrupts were off. *)
Definition bus_guarded (entry : bool * event) : Prop :=
  touches_bus (snd entry) = true -> fst entry = true.

(** *** Properties of computations, used by the theorems *)

(** Events that are no map-mode configuration step. *)
Definition quiet (e : event) : Prop := configures_map_mode e = false.

(** [emits phi m]: whatever the machine state, [m] leaves the interrupt
    mask as it found it and appends to the log only events satisfying
    [phi], each tagged with that mask. *)
Definition emits {A} (phi : event -> Prop) (m : M A) : Prop :=
  forall s, exists evs,
    irq_off (snd (m s)) = irq_off s
    /\ log (snd (m s)) = log s ++ map (pair (irq_off s)) evs
    /\ Forall phi evs.


(** [guarded m]: every bus access [m] logs happened with interrupts off,
    and if [m] completes the interrupt mask is the one it started with. *)
Definition guarded {A} (m : M A) : Prop :=
  forall s, exists entries,
    log (snd (m s)) = log s ++ entries
    /\ Forall bus_guarded entries
    /\ (fst (m s) <> None -> irq_off (snd (m s)) = irq_off s).

(** [masked_run stash m]: the same for the inside of a critical section:
    started with interrupts off, [m] logs only guarded bus accesses, and
    if it completes the mask is [stash]. *)
Definition masked_run {A} (stash : bool) (m : M A) : Prop :=
  forall s, irq_off s = true -> exists entries,
    log (snd (m s)) = log s ++ entries
    /\ Forall bus_guarded entries
    /\ (fst (m s) <> None -> irq_off (snd (m s)) = stash).

Section Ready.
Context {sdk : SdkConstants}.

(** A status value on which neither polling loop of the source waits:
    not busy, transmit buffer empty. *)
Definition ready (v : Z) : Prop :=
  busy (u32 v) = false /\ tx_not_empty (u32 v) = false.

(** [returns_in n m]: on hardware that is always ready, [m] completes
    after exactly [n] register reads. *)
Definition returns_in {A} (n : nat) (m : M A) : Prop :=
  forall s, Forall ready (inputs s) -> (n <= List.length (inputs s))%nat ->
    fst (m s) <> None /\ inputs (snd (m s)) = skipn n (inputs s).
End Ready.

(** *** A concrete machine, for running the model

    The register layout of the RP2350 QMI block as its datasheet gives it.
    It is used only to evaluate the model on concrete inputs. *)
Definition rp2350 : SdkConstants := {|
  GPIO_FUNC_XIP_CS1 := 9;
  QMI_DIRECT_CSR_CLKDIV_LSB := 22;
  QMI_DIRECT_CSR_EN_BITS := 0x1;
  QMI_DIRECT_CSR_BUSY_BITS := 0x2;
  QMI_DIRECT_CSR_ASSERT_CS1N_BITS := 0x8;
  QMI_DIRECT_CSR_TXEMPTY_BITS := 0x800;
  QMI_DIRECT_TX_OE_BITS := 0x80000;
  QMI_DIRECT_TX_IWIDTH_VALUE_Q := 2;
  QMI_DIRECT_TX_IWIDTH_LSB := 16;
  QMI_M1_TIMING_PAGEBREAK_VALUE_1024 := 2;
  QMI_M1_TIMING_PAGEBREAK_LSB := 28;
  QMI_M1_TIMING_COOLDOWN_LSB := 30;
  QMI_M1_TIMING_RXDELAY_LSB := 8;
  QMI_M1_TIMING_MAX_SELECT_LSB := 17;
  QMI_M1_TIMING_MIN_DESELECT_LSB := 12;
  QMI_M1_TIMING_CLKDIV_LSB := 0;
  QMI_M1_RFMT_PREFIX_WIDTH_VALUE_Q := 2;
  QMI_M1_RFMT_PREFIX_WIDTH_LSB := 0;
  QMI_M1_RFMT_ADDR_WIDTH_VALUE_Q := 2;
  QMI_M1_RFMT_ADDR_WIDTH_LSB := 2;
  QMI_M1_RFMT_SUFFIX_WIDTH_VALUE_Q := 2;
  QMI_M1_RFMT_SUFFIX_WIDTH_LSB := 4;
  QMI_M1_RFMT_DUMMY_WIDTH_VALUE_Q := 2;
  QMI_M1_RFMT_DUMMY_WIDTH_LSB := 6;
  QMI_M1_RFMT_DUMMY_LEN_VALUE_24 := 6;
  QMI_M1_RFMT_DUMMY_LEN_LSB := 16;
  QMI_M1_RFMT_DATA_WIDTH_VALUE_Q := 2;
  QMI_M1_RFMT_DATA_WIDTH_LSB := 8;
  QMI_M1_RFMT_PREFIX_LEN_VALUE_8 := 1;
  QMI_M1_RFMT_PREFIX_LEN_LSB := 12;
  QMI_M1_RFMT_SUFFIX_LEN_VALUE_NONE := 0;
  QMI_M1_RFMT_SUFFIX_LEN_LSB := 14;
  QMI_M1_WFMT_PREFIX_WIDTH_VALUE_Q := 2;
  QMI_M1_WFMT_PREFIX_WIDTH_LSB := 0;
  QMI_M1_WFMT_ADDR_WIDTH_VALUE_Q := 2;
  QMI_M1_WFMT_ADDR_WIDTH_LSB := 2;
  QMI_M1_WFMT_SUFFIX_WIDTH_VALUE_Q := 2;
  QMI_M1_WFMT_SUFFIX_WIDTH_LSB := 4;
  QMI_M1_WFMT_DUMMY_WIDTH_VALUE_Q := 2;
  QMI_M1_WFMT_DUMMY_WIDTH_LSB := 6;
  QMI_M1_WFMT_DUMMY_LEN_VALUE_NONE := 0;
  QMI_M1_WFMT_DUMMY_LEN_LSB := 16;
  QMI_M1_WFMT_DATA_WIDTH_VALUE_Q := 2;
  QMI_M1_WFMT_DATA_WIDTH_LSB := 8;
  QMI_M1_WFMT_PREFIX_LEN_VALUE_8 := 1;
  QMI_M1_WFMT_PREFIX_LEN_LSB := 12;
  QMI_M1_WFMT_SUFFIX_LEN_VALUE_NONE := 0;
  QMI_M1_WFMT_SUFFIX_LEN_LSB := 14;
  XIP_CTRL_WRITABLE_M1_BITS := 0x800
|}.

(** What a device that answers at once returns to the 47 register reads of
    a complete bring-up: the status [0x800] (transmit buffer empty, not
    busy) everywhere, except for the two identity bytes, which are the
    24th and the 27th value read. *)
Definition prompt_device (kgd eid : Z) : list Z :=
  repeat 0x800 23 ++ [kgd] ++ repeat 0x800 2 ++ [eid] ++ repeat 0x800 20.

(** Power-on state: interrupts enabled, nothing logged yet. *)
Definition boot (answers : list Z) : hw := mk_hw false answers [].

(** *** Views of the log, used by the further properties *)

(** What a view extracts from the entries of a log, in order. *)
Definition project {B} (view : event -> list B) (entries : list (bool * event))
  : list B :=
  flat_map (fun entry => view (snd entry)) entries.

(** The word stored to the transmit port. *)
Definition tx_word (e : event) : list Z :=
  match e with reg_write direct_tx v => [v] | _ => [] end.

(** The word loaded from the receive port. *)
Definition rx_word (e : event) : list Z :=
  match e with reg_read direct_rx v => [v] | _ => [] end.

(** The word stored to the direct-mode control register. *)
Definition csr_store (e : event) : list Z :=
  match e with reg_write direct_csr v => [v] | _ => [] end.

(** The accesses of the map-mode configuration: the stores to the M1
    registers and to the XIP control register, and the loads of the XIP
    control register. *)
Definition map_mode_access (e : event) : list event :=
  match e with
  | reg_write _ _ => if configures_map_mode e then [e] else []
  | reg_read xip_ctrl _ => [e]
  | _ => []
  end.

(** [observes view m R]: whenever [m] completes, with value [a], it has only
    appended to the log, and what [view] shows of the appended entries is
    related to [a] by [R]. *)
Definition observes {A B} (view : event -> list B) (m : M A)
  (R : A -> list B -> Prop) : Prop :=
  forall s a s', m s = (Some a, s') ->
    exists entries, log s' = log s ++ entries /\ R a (project view entries).

(** The words the bring-up sends: the quad-mode exit, then the identify
    command and its six no-ops, then the four commands that follow a
    successful identification. *)
Definition probe_words {sdk : SdkConstants} : list Z :=
  [ u32 (Z.lor (Z.lor QMI_DIRECT_TX_OE_BITS
                      (Z.shiftl QMI_DIRECT_TX_IWIDTH_VALUE_Q
                                QMI_DIRECT_TX_IWIDTH_LSB))
               PSRAM_CMD_QUAD_END);
    PSRAM_CMD_READ_ID;
    PSRAM_CMD_NOOP; PSRAM_CMD_NOOP; PSRAM_CMD_NOOP;
    PSRAM_CMD_NOOP; PSRAM_CMD_NOOP; PSRAM_CMD_NOOP ].

Definition command_words : list Z :=
  [ PSRAM_CMD_RSTEN; PSRAM_CMD_RST; PSRAM_CMD_QUAD_ENABLE;
    PSRAM_CMD_LINEAR_TOGGLE ].

(** The accesses of a map-mode configuration: five stores to the M1
    registers, then the load of the XIP control register, which returns
    [ctrl], and the store of [ctrl] with the write-enable bits set. *)
Definition map_mode_accesses {sdk : SdkConstants} (clk_sys_hz ctrl : Z)
  : list event :=
  let clock_hz := s32 clk_sys_hz in
  let clockDivider := Timing.clockDivider clock_hz in
  [ reg_write m1_timing
      (u32 (m1_timing_value (Timing.rxdelay clock_hz clockDivider)
                            (Timing.maxSelect clock_hz)
                            (Timing.minDeselect clock_hz clockDivider)
                            clockDivider));
    reg_write m1_rfmt (u32 m1_rfmt_value);
    reg_write m1_rcmd PSRAM_CMD_QUAD_READ;
    reg_write m1_wfmt (u32 m1_wfmt_value);
    reg_write m1_wcmd PSRAM_CMD_QUAD_WRITE;
    reg_read xip_ctrl ctrl;
    reg_write xip_ctrl (u32 (Z.lor ctrl XIP_CTRL_WRITABLE_M1_BITS)) ].

(** A device that reports busy in every status word. *)
Definition always_busy {sdk : SdkConstants} (answers : list Z) : Prop :=
  Forall (fun v => busy (u32 v) = true) answers.

(** A complete bring-up and an identification on the concrete machine, with
    a device that answers at once with the ids 0x5D and 0x40. *)
Definition sample_bring_up : option Z * hw :=
  setup_psram (sdk := rp2350) RP2350_XIP_CSI_PIN 150000000
              (boot (prompt_device 0x5D 0x40)).

Definition sample_probe : option (Z * Z) * hw :=
  probe (sdk := rp2350) RP2350_XIP_CSI_PIN 150000000
        (boot (prompt_device 0x5D 0x40)).

End Psram.

(** ** The benchmark harness and the correctness pass *)
Module Bench.
Import Word.

Definition TEST_SIZE : Z := 16 * 1024.
Definition LOOP_SCALE : Z := 200.
Definition PSRAM_LOCATION : Z := 0x11000000.
Definition PSRAM_LOCATION_NOCAHE : Z := 0x14000000.

(** *** Memory

    The 32-bit address space, one 32-bit word per word-aligned address.
    A store to an address that is not [writable] (flash) changes nothing. *)
Record memory : Type := mk_memory {
  cells : Z -> Z;
  writable : Z -> bool
}.

(** Address of [buffer[i]] for a [uint32_t *buffer]. *)
Definition element (buffer i : Z) : Z := u32 (buffer + 4 * i).

Definition load (m : memory) (a : Z) : Z := u32 (cells m a).

Definition store (m : memory) (a v : Z) : memory :=
  if writable m a
  then mk_memory (fun a' => if a' =? a then u32 v else cells m a') (writable m)
  else m.

(** *** The program's variables in memory

    The addresses the linker gives the variables the benchmark stores to:
    [s_value], and the [result] field of [s_memory_test_config[i]], a
    [uint64_t] held in two words, the low word first (the RP2350 is
    little-endian). *)
Class Globals : Type := {
  s_value_address : Z;
  result_address : nat -> Z
}.

(** One access of a test loop, with the subscript used. *)
Inductive access : Type :=
| Load (index : Z)
| Store (index : Z) (v : Z).

Definition index_of (a : access) : Z :=
  match a with Load i => i | Store i _ => i end.

Definition is_store (a : access) : bool :=
  match a with Load _ => false | Store _ _ => true end.

(** *** [memory_test] *)

(** The variables of the loops of [memory_test], with the memory and the
    accesses made so far. *)
Record run : Type := mk_run {
  ram : memory;
  accesses : list access;
  seed_value : Z;
  value : Z
}.

(** [seed_value = (seed_value * 1103515245U + 12345U);] *)
Definition lcg (seed : Z) : Z := u32 (seed * 1103515245 + 12345).

(** [seed_value & (buffer_size - 1)], both operands [uint32_t]. *)
Definition mask_index (seed buffer_size : Z) : Z :=
  Z.land seed (u32 (buffer_size - 1)).

(** Lines 357-358: [value += buffer[seed_value & (buffer_size - 1)];] *)
Definition rnd_read_step (buffer buffer_size : Z) (i : Z) (r : run) : run :=
  let seed := lcg (seed_value r) in
  let idx := mask_index seed buffer_size in
  mk_run (ram r) (accesses r ++ [Load idx]) seed
         (u32 (value r + load (ram r) (element buffer idx))).

(** Lines 369-370: [buffer[seed_value & (buffer_size - 1)] = value++;] *)
Definition rnd_write_step (buffer buffer_size : Z) (i : Z) (r : run) : run :=
  let seed := lcg (seed_value r) in
  let idx := mask_index seed buffer_size in
  mk_run (store (ram r) (element buffer idx) (value r))
         (accesses r ++ [Store idx (value r)]) seed
         (u32 (value r + 1)).

(** Line 385: [value += buffer[i];] *)
Definition seq_read_step (buffer : Z) (i : Z) (r : run) : run :=
  mk_run (ram r) (accesses r ++ [Load i]) (seed_value r)
         (u32 (value r + load (ram r) (element buffer i))).

(** Line 396: [buffer[i] = value++;] *)
Definition seq_write_step (buffer : Z) (i : Z) (r : run) : run :=
  mk_run (store (ram r) (element buffer i) (value r))
         (accesses r ++ [Store i (value r)]) (seed_value r)
         (u32 (value r + 1)).

(** [for (int i = 0; i < buffer_size; i++) body(i);]  The test compares
    [i], converted to unsigned, with the [uint32_t] bound, so the loop makes
    exactly [buffer_size] turns; in turn number [u] the [int] counter holds
    [s32 u]. *)
Fixpoint pass (turns : nat) (u : Z) (body : Z -> run -> run) (r : run) : run :=
  match turns with
  | O => r
  | S k => pass k (u + 1) body (body (s32 u) r)
  end.

(** The body selected by the two flags. *)
Definition step (buffer buffer_size : Z) (read rnd : bool) : Z -> run -> run :=
  if rnd then
    if read then rnd_read_step buffer buffer_size
    else rnd_write_step buffer buffer_size
  else
    if read then seq_read_step buffer else seq_write_step buffer.

(** [int loop_count = 100 * loop_scale;] *)
Definition loop_count (loop_scale : Z) : Z := s32 (100 * loop_scale).

(** Lines 342-400: the nested loops, from [value = 0] and
    [seed_value = 0xDEADBEEF].  The outer loop makes [loop_count] turns,
    none if it is not positive. *)
Definition run_loops (buffer buffer_size loop_scale : Z) (read rnd : bool)
  (m : memory) : run :=
  Nat.iter (Z.to_nat (loop_count loop_scale))
           (pass (Z.to_nat buffer_size) 0 (step buffer buffer_size read rnd))
           (mk_run m [] 0xDEADBEEF 0).

(** The program state the harness works on: the memory, which holds the
    variable [s_value] in the word at [s_value_address]; the value last
    assigned to [s_value]; and the accesses made by the tests so far. *)
Record state : Type := mk_state {
  mem : memory;
  s_value : Z;
  trace : list access
}.

(** [uint64_t memory_test(uint32_t *buffer, uint32_t buffer_size,
    int loop_scale, bool read, bool rnd)].  [start] and [finish] are what the
    two calls of [time_us_64()] return.  Line 404, [s_value = value;], is a
    store to the word of the variable, made after the loops. *)
Definition memory_test {globals : Globals} (start finish : Z)
  (buffer buffer_size loop_scale : Z) (read rnd : bool) (st : state)
  : Z * state :=
  let r := run_loops buffer buffer_size loop_scale read rnd (mem st) in
  ((finish - start) mod 2 ^ 64,
   mk_state (store (ram r) s_value_address (value r)) (value r)
            (trace st ++ accesses r)).

(** The specification's index sequence: [n] steps of the generator from
    [seed], each index being the new seed masked by [sizeWords - 1]. *)
Fixpoint lcg_indices (sizeWords : Z) (n : nat) (seed : Z) : list Z :=
  match n with
  | O => []
  | S k =>
      let seed' := (seed * 1103515245 + 12345) mod 2 ^ 32 in
      Z.land seed' (sizeWords - 1) :: lcg_indices sizeWords k seed'
  end.

(** *** The test table *)

Record memory_test_config : Type := mk_config {
  buffer : Z;
  buffer_size : Z;
  loop_scale : Z;
  read : bool;
  random : bool;
  test_name : string;
  result : Z
}.

(** [s_memory_test_config], the addresses the linker gives the two arrays
    [s_test_memory] and [s_testROM] being parameters. *)
Definition s_memory_test_config (s_test_memory s_testROM : Z)
  : list memory_test_config :=
  [ mk_config s_test_memory TEST_SIZE LOOP_SCALE true false "SEQ SRAM READ" 0;
    mk_config s_testROM TEST_SIZE LOOP_SCALE true false "SEQ ROM READ" 0;
    mk_config PSRAM_LOCATION TEST_SIZE LOOP_SCALE true false "SEQ PSRAM READ" 0;
    mk_config PSRAM_LOCATION_NOCAHE TEST_SIZE LOOP_SCALE true false
              "SEQ PSRAM NOCACHE READ" 0;
    mk_config s_test_memory TEST_SIZE LOOP_SCALE true true "RND SRAM READ" 0;
    mk_config s_testROM TEST_SIZE LOOP_SCALE true true "RND ROM READ" 0;
    mk_config PSRAM_LOCATION TEST_SIZE LOOP_SCALE true true "RND PSRAM READ" 0;
    mk_config PSRAM_LOCATION_NOCAHE TEST_SIZE LOOP_SCALE true true
              "RND PSRAM NOCACHE READ" 0;
    mk_config s_test_memory TEST_SIZE LOOP_SCALE false false "SEQ SRAM WRITE" 0;
    mk_config PSRAM_LOCATION TEST_SIZE LOOP_SCALE false false "SEQ PSRAM WRITE" 0;
    mk_config PSRAM_LOCATION_NOCAHE TEST_SIZE LOOP_SCALE false false
              "SEQ PSRAM NOCACHE WRITE" 0;
    mk_config s_test_memory TEST_SIZE LOOP_SCALE false true "RND SRAM WRITE" 0;
    mk_config PSRAM_LOCATION TEST_SIZE LOOP_SCALE false true "RND PSRAM WRITE" 0;
    mk_config PSRAM_LOCATION_NOCAHE TEST_SIZE LOOP_SCALE false true
              "RND PSRAM NOCACHE WRITE" 0 ].

(** *** [test_mem] *)

(** The three report lines of [test_mem]; the argument is the test name. *)
Inductive report : Type :=
| Passed (name : string)
| Failed (name : string)
| Skipped (name : string).

(** The text [printf] is given for a report. *)
Definition format_of (r : report) : string :=
  match r with
  | Passed _ => "Passed Mem Test, %s\n"
  | Failed _ => "Failed Mem Test, %s\n"
  | Skipped _ => "Skipped Mem Test, %s\n"
  end.

(** Lines 430-438: write the sentinel to each word and read it back; stop
    at the first word that does not hold it.
    [[
    for (int x = 0; x < buffer_size; x++) {
      buffer[x] = value;
      if (buffer[x] != value) { result = false; break; }
    }
    ]]
    The pointer is not [volatile]: a build may compare the value it has
    just stored instead of loading the word again.  [forwarded] tells
    whether the build does so. *)
Fixpoint check_words (forwarded : bool) (turns : nat) (u : Z) (buffer : Z)
  (m : memory) : bool * memory :=
  match turns with
  | O => (true, m)
  | S k =>
      let m' := store m (element buffer (s32 u)) 0xDEADBEEF in
      let read_back :=
        if forwarded then u32 0xDEADBEEF
        else load m' (element buffer (s32 u)) in
      if negb (read_back =? 0xDEADBEEF)
      then (false, m')
      else check_words forwarded k (u + 1) buffer m'
  end.

(** Line 424, the region filter, a comparison of the descriptor's pointer
    with the constant [0x10000000] cast to a pointer:
    [[
    (buffer < 0x10000000) || (buffer >= 0x10000000)
    ]] *)
Definition checked_region (buffer : Z) : bool :=
  (buffer <? 0x10000000) || (buffer >=? 0x10000000).

(** One turn of the loop of [test_mem]: the memory after it and the line
    printed. *)
Definition test_one (forwarded : bool) (c : memory_test_config) (m : memory)
  : memory * report :=
  if checked_region (buffer c) then
    let '(result, m') :=
      check_words forwarded (Z.to_nat (buffer_size c)) 0 (buffer c) m in
    if result then (m', Passed (test_name c)) else (m', Failed (test_name c))
  else (m, Skipped (test_name c)).

(** [void test_mem(void)] over a table: the memory it leaves and the lines
    it prints, in order. *)
Fixpoint test_mem (forwarded : bool) (table : list memory_test_config)
  (m : memory) : memory * list report :=
  match table with
  | [] => (m, [])
  | c :: rest =>
      let '(m1, line) := test_one forwarded c m in
      let '(m2, lines) := test_mem forwarded rest m1 in
      (m2, line :: lines)
  end.

(** The regions the specification excludes from the correctness pass: the
    descriptors whose buffer is the read-only array [s_testROM]. *)
Definition excluded (s_testROM : Z) (c : memory_test_config) : bool :=
  buffer c =? s_testROM.

(** *** Sample memories, for running the model *)

(** Everything writable, all words zero. *)
Definition blank_ram : memory := mk_memory (fun _ => 0) (fun _ => true).

(** The flash window from [0x10000000] up to [PSRAM_LOCATION] is read-only
    and holds zeros (the contents of the [const] array [s_testROM]);
    everything else is writable. *)
Definition board_memory : memory :=
  mk_memory (fun _ => 0)
            (fun a => negb ((0x10000000 <=? a) && (a <? PSRAM_LOCATION))).

(** The variable [s_value] and the table [s_memory_test_config] at sample
    addresses in RAM, the descriptors being 32 bytes long with [result] at
    offset 24. *)
Definition sample_layout : Globals := {|
  s_value_address := 0x20010000;
  result_address := fun i => 0x20010118 + 32 * Z.of_nat i
|}.

(** All words zero and writable, except the word of [s_value], which
    holds [v]. *)
Definition ram_with_value {globals : Globals} (v : Z) : memory :=
  mk_memory (fun a => if a =? s_value_address then v else 0) (fun _ => true).

(** *** Vocabulary of the theorems *)

(** A [uint32_t] that is a power of two. *)
Definition power_of_two (n : Z) : Prop := exists k, 0 <= k < 32 /\ n = 2 ^ k.

(** The subscript lies inside a buffer of [buffer_size] words. *)
Definition in_bounds (buffer_size : Z) (a : access) : Prop :=
  0 <= index_of a < buffer_size.

(** The line printed for a descriptor reports a check that was run. *)
Definition checked_line (c : memory_test_config) (line : report) : Prop :=
  line = Passed (test_name c) \/ line = Failed (test_name c).

(** *** Vocabulary of the further properties *)

(** Sum of the [count] words of the buffer from subscript [first] on. *)
Fixpoint words_sum (m : memory) (buffer first : Z) (count : nat) : Z :=
  match count with
  | O => 0
  | S k => load m (element buffer first) + words_sum m buffer (first + 1) k
  end.

(** The address is none of the [n] words of the buffer. *)
Definition outside (buffer n a : Z) : Prop :=
  forall i, 0 <= i < n -> a <> element buffer i.

(** The subscripts [0 .. n-1]. *)
Definition subscripts (n : Z) : list Z := map Z.of_nat (seq 0 (Z.to_nat n)).

(** *** [run_tests] *)

(** The arguments of one report line of [run_tests],
    ["Test, %s, 0x%08lX, %d, %d\n"]: the name, the buffer address as
    [long unsigned], the size and the elapsed time, both cast to [int]. *)
Record test_line : Type := mk_line {
  line_name : string;
  line_address : Z;
  line_size : Z;
  line_elapsed : Z
}.

(** [s_memory_test_config[i].result = delta;] for a [uint64_t]: a store to
    each of the two words of the field. *)
Definition store_result {globals : Globals} (i : nat) (delta : Z) (m : memory)
  : memory :=
  store (store m (result_address i) delta)
        (u32 (result_address i + 4)) (delta / 2 ^ 32).


(** [void run_tests(void)] over the descriptors of a table from number [i]
    on.  [time_us_64 k] is what the call number [k] of the clock returns;
    [calls] is the number of calls made so far.  The result is the table
    with the [result] fields set, the state left, in which the fields have
    been stored to memory, and the lines printed.  The other fields of a
    descriptor are those of the table's initialiser: the program assigns
    none of them. *)
Fixpoint run_tests {globals : Globals} (time_us_64 : nat -> Z) (calls : nat)
  (i : nat) (table : list memory_test_config) (st : state)
  : list memory_test_config * state * list test_line :=
  match table with
  | [] => ([], st, [])
  | c :: rest =>
      let '(delta, st1) :=
        memory_test (time_us_64 calls) (time_us_64 (S calls))
                    (buffer c) (buffer_size c) (loop_scale c)
                    (read c) (random c) st in
      let st1' := mk_state (store_result i delta (mem st1)) (s_value st1)
                           (trace st1) in
      let c' := mk_config (buffer c) (buffer_size c) (loop_scale c)
                          (read c) (random c) (test_name c) delta in
      let line := mk_line (test_name c) (u32 (buffer c))
                          (s32 (buffer_size c)) (s32 (result c')) in
      let '(rest', st2, lines) :=
        run_tests time_us_64 (S (S calls)) (S i) rest st1' in
      (c' :: rest', st2, line :: lines)
  end.

(** *** The generator without the wrap-around *)

(** [seed * 1103515245 + 12345] over the integers. *)
Definition affine (x : Z) : Z := x * 1103515245 + 12345.

(** [1 + a + ... + a^(m-1)] for the multiplier [a] of the generator. *)
Fixpoint multiplier_sum (m : nat) : Z :=
  match m with
  | O => 0
  | S k => 1103515245 * multiplier_sum k + 1
  end.

(** Sum of the words of the buffer at the subscripts of a list, one term
    per element of the list. *)
Definition sum_at (m : memory) (buffer : Z) (indices : list Z) : Z :=
  fold_right (fun i acc => load m (element buffer i) + acc) 0 indices.

End Bench.

(* ===================================================================== *)
(** * Part II: the theorems                                               *)
(* ===================================================================== *)

Module WordFacts.
Import Word.

Lemma u32_range z : 0 <= u32 z < 2 ^ 32.
Proof. unfold u32. apply Z.mod_pos_bound. lia. Qed.

Lemma u32_id z : 0 <= z < 2 ^ 32 -> u32 z = z.
Proof. intros H. unfold u32. apply Z.mod_small. exact H. Qed.

Lemma s32_id z : - 2 ^ 31 <= z < 2 ^ 31 -> s32 z = z.
Proof. intros H. unfold s32. rewrite Z.mod_small; lia. Qed.

Lemma s32_range z : - 2 ^ 31 <= s32 z < 2 ^ 31.
Proof.
  unfold s32. pose proof (Z.mod_pos_bound (z + 2 ^ 31) (2 ^ 32)). lia.
Qed.

End WordFacts.

Module TimingFacts.
Import Word WordFacts Timing.

(** [ceil_div a b] is the least integer [q] with [a <= q * b]. *)
Lemma ceil_div_spec a b :
  0 < b -> (ceil_div a b - 1) * b < a <= ceil_div a b * b.
Proof.
  intros Hb. unfold ceil_div.
  pose proof (Z.div_mod (- a) b) as E.
  pose proof (Z.mod_pos_bound (- a) b Hb) as B.
  nia.
Qed.

Lemma ceil_div_unique a b q :
  0 < b -> (q - 1) * b < a <= q * b -> ceil_div a b = q.
Proof.
  intros Hb Hq. pose proof (ceil_div_spec a b Hb) as Hc. nia.
Qed.

(** The usual integer formula for the ceiling. *)
Lemma ceil_div_formula a b : 0 < b -> ceil_div a b = (a + b - 1) / b.
Proof.
  intros Hb. apply ceil_div_unique; [exact Hb|].
  pose proof (Z.div_mod (a + b - 1) b) as E.
  pose proof (Z.mod_pos_bound (a + b - 1) b Hb) as B.
  nia.
Qed.

Lemma ceil_div_pos a b : 0 < b -> 0 < a -> 1 <= ceil_div a b.
Proof.
  intros Hb Ha. pose proof (ceil_div_spec a b Hb) as Hc. nia.
Qed.

(** Without overflow in the sum the source computes the specification's
    divider. *)
Lemma clock_divider_for_spec max_freq clock_hz :
  0 < max_freq -> 0 < clock_hz -> clock_hz + max_freq <= INT_MAX ->
  clock_divider_for max_freq clock_hz = spec_divider max_freq clock_hz.
Proof.
  intros Hm Hc Ho. unfold clock_divider_for, spec_divider, INT_MAX in *.
  rewrite (s32_id (clock_hz + max_freq)) by lia.
  rewrite s32_id by lia.
  rewrite Z.quot_div_nonneg by lia.
  rewrite <- ceil_div_formula by exact Hm.
  reflexivity.
Qed.

Lemma spec_divider_pos max_freq clock_hz :
  0 < max_freq -> 0 < clock_hz -> 1 <= spec_divider max_freq clock_hz.
Proof.
  intros Hm Hc. unfold spec_divider.
  pose proof (ceil_div_pos clock_hz max_freq Hm Hc).
  destruct ((ceil_div clock_hz max_freq =? 1) && (clock_hz >? 100000000)); lia.
Qed.

(** Dividing the system clock by the specification's divider never exceeds
    the device limit, in the forced branch as well. *)
Lemma spec_divider_bound max_freq clock_hz :
  0 < max_freq -> 0 < clock_hz ->
  clock_hz <= spec_divider max_freq clock_hz * max_freq.
Proof.
  intros Hm Hc. unfold spec_divider.
  pose proof (ceil_div_spec clock_hz max_freq Hm) as Hs.
  destruct (Z.eqb_spec (ceil_div clock_hz max_freq) 1) as [E|E]; simpl.
  - destruct (clock_hz >? 100000000); nia.
  - lia.
Qed.

(** C3, amended: for every systemClockHz > 0 and maxDeviceFreqHz > 0 whose
    sum fits a 32-bit signed int (for the program's 133 MHz limit:
    systemClockHz <= 2,014,483,647), the derived clockDivider is
    ceil(systemClockHz / maxDeviceFreqHz), except that it is 2 when that
    ceiling is 1 and systemClockHz > 100,000,000; it is at least 1, and
    outside the forced branch systemClockHz / clockDivider is at most
    maxDeviceFreqHz; 150 MHz against 133 MHz gives 2, the ceiling itself. *)
Theorem clockDivider_ceiling max_freq clock_hz :
  0 < max_freq -> 0 < clock_hz -> clock_hz + max_freq <= INT_MAX ->
  clock_divider_for max_freq clock_hz
    = (if (ceil_div clock_hz max_freq =? 1) && (clock_hz >? 100000000)
       then 2 else ceil_div clock_hz max_freq)
  /\ 1 <= clock_divider_for max_freq clock_hz
  /\ (~ forced max_freq clock_hz ->
      clock_hz / clock_divider_for max_freq clock_hz <= max_freq)
  /\ (clockDivider 150000000 = 2 /\ ceil_div 150000000 max_psram_freq = 2).
Proof.
  intros Hm Hc Ho.
  rewrite (clock_divider_for_spec _ _ Hm Hc Ho).
  pose proof (spec_divider_pos _ _ Hm Hc) as Hp.
  pose proof (spec_divider_bound _ _ Hm Hc) as Hb.
  repeat split; try reflexivity; try exact Hp.
  intros _. apply Z.div_le_upper_bound; lia.
Qed.

Lemma clockDivider_ceiling_witness :
  clock_divider_for 133000000 150000000 = 2
  /\ 150000000 / clock_divider_for 133000000 150000000 <= 133000000.
Proof.
  destruct (clockDivider_ceiling 133000000 150000000) as (_ & _ & H & _);
    [reflexivity | reflexivity | unfold INT_MAX; lia |].
  split; [reflexivity|].
  apply H. unfold forced. vm_compute. intros [E _]. discriminate E.
Defined.

(** C3 as stated fails: at a system clock of 2.1 GHz, a positive [int], the
    sum [clock_hz + max_psram_freq - 1] leaves the 32-bit signed range; the
    divider comes out as -15 where the ceiling is 16, and is not even
    positive. *)
Lemma clockDivider_overflow :
  0 < 2100000000 <= INT_MAX
  /\ clockDivider 2100000000 = -15
  /\ ceil_div 2100000000 max_psram_freq = 16
  /\ clockDivider 2100000000 <> spec_divider max_psram_freq 2100000000
  /\ ~ 1 <= clockDivider 2100000000.
Proof.
  split; [unfold INT_MAX; lia|].
  split; [reflexivity|]. split; [reflexivity|].
  replace (clockDivider 2100000000) with (-15) by reflexivity.
  replace (spec_divider max_psram_freq 2100000000) with 16 by reflexivity.
  lia.
Qed.

(** When the period and the rounded sum fit an [int], line 114 is the
    specification's formula, for any divider whose successor is a
    non-negative [int]. *)
Lemma minDeselect_spec clock_hz d :
  469598 <= clock_hz <= INT_MAX -> -1 <= d < INT_MAX ->
  clock_period_fs clock_hz = 1000000000000000 / clock_hz
  /\ minDeselect clock_hz d = spec_minDeselect clock_hz d.
Proof.
  intros Hc Hd. unfold INT_MAX in *.
  assert (Hp : 465661 <= 1000000000000000 / clock_hz <= 2129483648).
  { split.
    - apply Z.div_le_lower_bound; lia.
    - apply Z.lt_succ_r. apply Z.div_lt_upper_bound; lia. }
  assert (Ep : clock_period_fs clock_hz = 1000000000000000 / clock_hz).
  { unfold clock_period_fs. rewrite Z.quot_div_nonneg by lia.
    apply s32_id. lia. }
  split; [exact Ep|].
  unfold minDeselect, spec_minDeselect. rewrite Ep.
  set (p := 1000000000000000 / clock_hz) in *.
  rewrite (s32_id (p - 1)) by lia.
  rewrite (s32_id (18 * 1000000 + (p - 1))) by lia.
  rewrite (s32_id (d + 1)) by lia.
  rewrite !Z.quot_div_nonneg by lia.
  replace (18 * 1000000 + (p - 1)) with (18000000 + p - 1) by lia.
  rewrite <- ceil_div_formula by lia.
  pose proof (ceil_div_spec 18000000 p ltac:(lia)) as Hq.
  assert (0 <= (d + 1) / 2 <= d + 1).
  { split; [apply Z.div_pos; lia | apply Z.div_le_upper_bound; lia]. }
  assert (1 <= ceil_div 18000000 p <= 39) by nia.
  rewrite (s32_id (ceil_div 18000000 p)) by lia.
  apply s32_id. lia.
Qed.

Lemma clockDivider_nonneg clock_hz :
  0 < clock_hz -> clock_hz + max_psram_freq <= INT_MAX ->
  1 <= clockDivider clock_hz < INT_MAX.
Proof.
  intros Hc Ho. unfold clockDivider.
  assert (Hm : 0 < max_psram_freq) by reflexivity.
  rewrite (clock_divider_for_spec _ _ Hm Hc Ho).
  split; [apply spec_divider_pos; assumption|].
  unfold spec_divider.
  pose proof (ceil_div_spec clock_hz max_psram_freq Hm) as Hs.
  unfold max_psram_freq, INT_MAX in *.
  destruct ((ceil_div clock_hz 133000000 =? 1) && (clock_hz >? 100000000));
    lia.
Qed.

(** C4, amended: for every systemClockHz from 469,598 to 2,014,483,647 (the
    range in which the clock period 10^15 / systemClockHz and the rounded
    sum fit a 32-bit signed int and the divider's sum does not overflow),
    clockPeriod is the integer 10^15 / systemClockHz and minDeselectWindow
    is ceil(18,000,000 / clockPeriod) - floor((clockDivider + 1) / 2). *)
Theorem minDeselect_formula clock_hz :
  469598 <= clock_hz <= 2014483647 ->
  clock_period_fs clock_hz = 1000000000000000 / clock_hz
  /\ minDeselect clock_hz (clockDivider clock_hz)
     = ceil_div 18000000 (1000000000000000 / clock_hz)
       - (clockDivider clock_hz + 1) / 2.
Proof.
  intros Hc.
  assert (Hd : 1 <= clockDivider clock_hz < INT_MAX).
  { apply clockDivider_nonneg; unfold max_psram_freq, INT_MAX; lia. }
  apply minDeselect_spec; unfold INT_MAX in *; lia.
Qed.

Lemma minDeselect_formula_witness :
  clock_period_fs 150000000 = 6666666
  /\ minDeselect 150000000 (clockDivider 150000000) = 2.
Proof.
  destruct (minDeselect_formula 150000000) as [Hp Hm]; [lia|].
  split; [rewrite Hp | rewrite Hm]; reflexivity.
Defined.

(** C4 as stated fails: at a system clock of 1 kHz the period, 10^12 fs,
    does not fit the [int] it is stored in; the stored period is negative
    and the deselect window comes out as -1 where the formula gives 0. *)
Lemma minDeselect_low_clock :
  0 < 1000
  /\ 1000000000000000 / 1000 = 1000000000000
  /\ clock_period_fs 1000 = -727379968
  /\ minDeselect 1000 (clockDivider 1000) = -1
  /\ ceil_div 18000000 (1000000000000000 / 1000) - (clockDivider 1000 + 1) / 2 = 0
  /\ minDeselect 1000 (clockDivider 1000)
     <> ceil_div 18000000 (1000000000000000 / 1000) - (clockDivider 1000 + 1) / 2.
Proof.
  split; [lia|]. do 4 (split; [reflexivity|]).
  vm_compute. discriminate.
Qed.

End TimingFacts.

Module PsramFacts.
Import Word WordFacts Psram.
Local Open Scope hw_scope.

(** *** Capacity *)

Lemma byte_cases (P : Z -> Prop) :
  Forall P (map Z.of_nat (seq 0 256)) ->
  forall b, 0 <= b < 256 -> P b.
Proof.
  intros H b Hb. rewrite Forall_forall in H. apply H.
  rewrite <- (Z2Nat.id b) by lia. apply in_map. apply in_seq. lia.
Qed.

(** The shift of the source reads the three top bits of the byte. *)
Lemma size_id_top3 eid : 0 <= eid < 256 -> u8 (Z.shiftr eid 5) = top3 eid.
Proof.
  revert eid. apply byte_cases.
  repeat (apply Forall_cons; [vm_compute; reflexivity|]). apply Forall_nil.
Qed.

(** C5: for every extended-id byte the capacity is 1 MiB times the
    multiplier of the specification: 8 for the byte 0x26 or top bits 2,
    1 for top bits 0, 4 for top bits 1, and 1 for everything else;
    0x00 gives 1 MiB, 0x20 gives 4 MiB, 0x40 and 0x26 give 8 MiB. *)
Theorem psram_size_of_multiplier eid :
  0 <= eid < 256 ->
  psram_size_of eid = 1048576 * spec_multiplier eid
  /\ psram_size_of 0x00 = 1048576
  /\ psram_size_of 0x20 = 4 * 1048576
  /\ psram_size_of 0x40 = 8 * 1048576
  /\ psram_size_of 0x26 = 8 * 1048576.
Proof.
  intros Hb. split; [|repeat split; reflexivity].
  unfold psram_size_of, spec_multiplier.
  rewrite (size_id_top3 eid Hb).
  destruct ((eid =? 38) || (top3 eid =? 2)); [reflexivity|].
  destruct (top3 eid =? 0); [reflexivity|].
  destruct (top3 eid =? 1); reflexivity.
Qed.

Lemma psram_size_of_multiplier_witness :
  psram_size_of 0x5D = 8388608.
Proof.
  destruct (psram_size_of_multiplier 0x5D) as [H _]; [lia|].
  rewrite H. reflexivity.
Defined.

(** *** Blocks that leave the interrupt mask alone *)

Lemma emits_ret {A} phi (a : A) : emits phi (ret a).
Proof.
  intros s. exists []. simpl. rewrite app_nil_r. auto.
Qed.

Lemma emits_emit phi e : phi e -> emits phi (emit e).
Proof.
  intros He s. exists [e]. simpl. auto.
Qed.

Lemma emits_write phi r v : phi (reg_write r (u32 v)) -> emits phi (write r v).
Proof. apply emits_emit. Qed.

Lemma emits_read phi r : (forall v, phi (reg_read r v)) -> emits phi (read r).
Proof.
  intros Hr s. unfold read. destruct (inputs s) as [|v rest]; simpl.
  - exists []. simpl. rewrite app_nil_r. auto.
  - exists [reg_read r (u32 v)]. simpl. auto.
Qed.

Lemma emits_bind {A B} phi (m : M A) (f : A -> M B) :
  emits phi m -> (forall a, emits phi (f a)) -> emits phi (bind m f).
Proof.
  intros Hm Hf s. unfold bind.
  destruct (Hm s) as (evs & Hi & Hl & Hp).
  destruct (m s) as [[a|] s1]; simpl in *.
  - destruct (Hf a s1) as (evs' & Hi' & Hl' & Hp').
    exists (evs ++ evs'). rewrite Hi', Hl', Hl, Hi, map_app, app_assoc.
    split; [reflexivity|]. split; [reflexivity|]. apply Forall_app; auto.
  - exists evs. auto.
Qed.

Lemma emits_spin phi r again :
  (forall v, phi (reg_read r v)) ->
  forall pending s, exists evs,
    irq_off (snd (spin r again pending s)) = irq_off s
    /\ log (snd (spin r again pending s)) = log s ++ map (pair (irq_off s)) evs
    /\ Forall phi evs.
Proof.
  intros Hr. induction pending as [|v rest IH]; intros s; simpl.
  - exists []. simpl. rewrite app_nil_r. auto.
  - destruct (again (u32 v)).
    + destruct (IH (mk_hw (irq_off s) rest
                          (log s ++ [(irq_off s, reg_read r (u32 v))])))
        as (evs & Hi & Hl & Hp).
      exists (reg_read r (u32 v) :: evs). simpl in *.
      rewrite Hi, Hl, <- app_assoc. simpl. auto.
    + exists [reg_read r (u32 v)]. simpl. auto.
Qed.

Lemma emits_wait_while phi r again :
  (forall v, phi (reg_read r v)) -> emits phi (wait_while r again).
Proof. intros Hr s. apply emits_spin. exact Hr. Qed.

Lemma emits_for_loop {S} phi (body : Z -> S -> M S) :
  (forall i acc, emits phi (body i acc)) ->
  forall turns i acc, emits phi (for_loop turns i body acc).
Proof.
  intros Hb. induction turns as [|k IH]; intros i acc; simpl.
  - apply emits_ret.
  - apply emits_bind; [apply Hb | intros acc'; apply IH].
Qed.

Lemma emits_set_bits phi r bits :
  (forall v, phi (reg_read r v)) -> (forall v, phi (reg_write r v)) ->
  emits phi (set_bits r bits).
Proof.
  intros Hr Hw. apply emits_bind; [apply emits_read, Hr|].
  intros v. apply emits_write, Hw.
Qed.

Lemma emits_clear_bits phi r bits :
  (forall v, phi (reg_read r v)) -> (forall v, phi (reg_write r v)) ->
  emits phi (clear_bits r bits).
Proof.
  intros Hr Hw. apply emits_bind; [apply emits_read, Hr|].
  intros v. apply emits_write, Hw.
Qed.

(** Steps through a block built from the primitives above, by the shape of
    the computation; [side] proves that an event satisfies the predicate. *)
Ltac emits_steps side :=
  repeat lazymatch goal with
  | |- emits _ (bind _ _) => apply emits_bind; [|intros]
  | |- emits _ (ret _) => apply emits_ret
  | |- emits _ (wait_while _ _) => apply emits_wait_while; intros; side
  | |- emits _ (set_bits _ _) => apply emits_set_bits; intros; side
  | |- emits _ (clear_bits _ _) => apply emits_clear_bits; intros; side
  | |- emits _ (write _ _) => apply emits_write; side
  | |- emits _ (read _) => apply emits_read; intros; side
  | |- emits _ (emit _) => apply emits_emit; side
  | |- emits _ (for_loop _ _ _ _) => apply emits_for_loop; intros; cbv beta
  | |- emits _ (if ?c then _ else _) => destruct c
  end.

(** *** Any block: what is appended to the log *)






(** *** The critical-section discipline *)

Lemma guarded_ret {A} (a : A) : guarded (ret a).
Proof.
  intros s. exists []. simpl. rewrite app_nil_r. auto.
Qed.

Lemma guarded_emit e : touches_bus e = false -> guarded (emit e).
Proof.
  intros He s. exists [(irq_off s, e)]. simpl.
  split; [reflexivity|]. split; [|reflexivity].
  apply Forall_cons; [|apply Forall_nil].
  unfold bus_guarded. simpl. rewrite He. discriminate.
Qed.

Lemma guarded_bind {A B} (m : M A) (f : A -> M B) :
  guarded m -> (forall a, guarded (f a)) -> guarded (bind m f).
Proof.
  intros Hm Hf s. unfold bind.
  destruct (Hm s) as (es & Hl & Hg & Hi).
  destruct (m s) as [[a|] s1]; simpl in *.
  - destruct (Hf a s1) as (es' & Hl' & Hg' & Hi').
    exists (es ++ es'). rewrite Hl', Hl, app_assoc.
    split; [reflexivity|]. split; [apply Forall_app; auto|].
    intros Hr. rewrite (Hi' Hr). apply Hi. discriminate.
  - exists es. split; [exact Hl|]. split; [exact Hg|].
    intros Hr. exfalso. apply Hr. reflexivity.
Qed.

Lemma masked_bind_emits {A B} phi stash (m : M A) (f : A -> M B) :
  emits phi m -> (forall a, masked_run stash (f a)) ->
  masked_run stash (bind m f).
Proof.
  intros Hm Hf s Hoff. unfold bind.
  destruct (Hm s) as (evs & Hi & Hl & _). rewrite Hoff in *.
  assert (Hg : Forall bus_guarded (map (pair true) evs)).
  { apply Forall_map. apply Forall_forall. intros e _ _. reflexivity. }
  destruct (m s) as [[a|] s1]; simpl in *.
  - destruct (Hf a s1 Hi) as (es' & Hl' & Hg' & Hi').
    exists (map (pair true) evs ++ es'). rewrite Hl', Hl, app_assoc.
    split; [reflexivity|]. split; [apply Forall_app; auto | exact Hi'].
  - exists (map (pair true) evs). split; [exact Hl|]. split; [exact Hg|].
    intros Hr. exfalso. apply Hr. reflexivity.
Qed.

Lemma masked_restore {A} stash (k : M A) :
  guarded k -> masked_run stash (bind (restore_interrupts stash) (fun _ => k)).
Proof.
  intros Hk s Hoff. unfold bind, restore_interrupts.
  set (s1 := mk_hw stash (inputs s) (log s ++ [(irq_off s, irq_restore stash)])).
  destruct (Hk s1) as (es & Hl & Hg & Hi).
  exists ((irq_off s, irq_restore stash) :: es).
  rewrite Hl. unfold s1 at 1. simpl. rewrite <- app_assoc. simpl.
  split; [reflexivity|]. split; [|exact Hi].
  apply Forall_cons; [|exact Hg]. unfold bus_guarded. simpl. discriminate.
Qed.

Lemma guarded_save {A} (f : bool -> M A) :
  (forall stash, masked_run stash (f stash)) ->
  guarded (bind save_and_disable_interrupts f).
Proof.
  intros Hf s. unfold bind, save_and_disable_interrupts.
  set (s1 := mk_hw true (inputs s) (log s ++ [(irq_off s, irq_save_disable)])).
  destruct (Hf (irq_off s) s1 eq_refl) as (es & Hl & Hg & Hi).
  exists ((irq_off s, irq_save_disable) :: es).
  rewrite Hl. unfold s1 at 1. simpl. rewrite <- app_assoc. simpl.
  split; [reflexivity|]. split; [|exact Hi].
  apply Forall_cons; [|exact Hg]. unfold bus_guarded. simpl. discriminate.
Qed.

Section WithSdk.
Context {sdk : SdkConstants}.

Lemma exit_quad_quiet : emits quiet exit_quad.
Proof. unfold exit_quad. emits_steps ltac:(reflexivity). Qed.

Lemma read_id_quiet : emits quiet read_id.
Proof. unfold read_id, read_id_turn. emits_steps ltac:(reflexivity). Qed.

Lemma enable_quad_emits : emits (fun _ => True) enable_quad.
Proof.
  unfold enable_quad, command_turn. emits_steps ltac:(exact I).
Qed.

Lemma configure_map_mode_emits r x n d :
  emits (fun _ => True) (configure_map_mode r x n d).
Proof. unfold configure_map_mode. emits_steps ltac:(exact I). Qed.

Lemma probe_guarded pin clk : guarded (probe pin clk).
Proof.
  unfold probe.
  apply guarded_bind; [apply guarded_emit; reflexivity | intros _].
  apply guarded_bind; [apply guarded_emit; reflexivity | intros _].
  apply guarded_save. intros stash.
  apply (masked_bind_emits quiet); [apply exit_quad_quiet | intros _].
  apply (masked_bind_emits quiet); [apply read_id_quiet | intros ids].
  apply masked_restore. apply guarded_ret.
Qed.

Lemma bring_up_guarded clk ids : guarded (bring_up clk ids).
Proof.
  unfold bring_up. destruct (negb (fst ids =? PSRAM_ID)).
  - apply guarded_bind; [apply guarded_emit; reflexivity | intros _].
    apply guarded_ret.
  - apply guarded_bind; [apply guarded_emit; reflexivity | intros _].
    apply guarded_save. intros stash.
    eapply masked_bind_emits; [apply enable_quad_emits | intros _].
    eapply masked_bind_emits; [apply configure_map_mode_emits | intros _].
    apply masked_restore.
    apply guarded_bind; [apply guarded_emit; reflexivity | intros _].
    apply guarded_ret.
Qed.


(** *** Completion on hardware that is always ready *)

Lemma ready_skipn n (l : list Z) : Forall ready l -> Forall ready (skipn n l).
Proof.
  intros H. rewrite <- (firstn_skipn n l) in H.
  apply Forall_app in H. apply H.
Qed.

Lemma returns_in_eq {A} n n' (m : M A) :
  returns_in n' m -> n = n' -> returns_in n m.
Proof. intros H E. subst. exact H. Qed.

Lemma returns_in_ret {A} (a : A) : returns_in 0 (ret a).
Proof. intros s _ _. simpl. split; [discriminate | reflexivity]. Qed.

Lemma returns_in_emit e : returns_in 0 (emit e).
Proof. intros s _ _. simpl. split; [discriminate | reflexivity]. Qed.

Lemma returns_in_save : returns_in 0 save_and_disable_interrupts.
Proof. intros s _ _. simpl. split; [discriminate | reflexivity]. Qed.

Lemma returns_in_restore status : returns_in 0 (restore_interrupts status).
Proof. intros s _ _. simpl. split; [discriminate | reflexivity]. Qed.

Lemma returns_in_read r : returns_in 1 (read r).
Proof.
  intros s _ Hn. unfold read. destruct (inputs s) as [|v rest]; simpl in *.
  - lia.
  - split; [discriminate | reflexivity].
Qed.

Lemma returns_in_wait_busy r : returns_in 1 (wait_while r busy).
Proof.
  intros s Hr Hn. unfold wait_while.
  destruct (inputs s) as [|v rest]; simpl in *; [lia|].
  inversion Hr as [|? ? [Hb _] _]; subst. rewrite Hb. simpl.
  split; [discriminate | reflexivity].
Qed.

Lemma returns_in_wait_tx r : returns_in 1 (wait_while r tx_not_empty).
Proof.
  intros s Hr Hn. unfold wait_while.
  destruct (inputs s) as [|v rest]; simpl in *; [lia|].
  inversion Hr as [|? ? [_ Ht] _]; subst. rewrite Ht. simpl.
  split; [discriminate | reflexivity].
Qed.

Lemma returns_in_bind {A B} n1 n2 (m : M A) (f : A -> M B) :
  returns_in n1 m -> (forall a, returns_in n2 (f a)) ->
  returns_in (n1 + n2) (bind m f).
Proof.
  intros Hm Hf s Hr Hn. unfold bind.
  destruct (Hm s Hr ltac:(lia)) as [Hsome Hin].
  destruct (m s) as [[a|] s1]; simpl in *; [|congruence].
  destruct (Hf a s1) as [Hsome' Hin'].
  - rewrite Hin. apply ready_skipn, Hr.
  - rewrite Hin, length_skipn. lia.
  - split; [exact Hsome'|].
    rewrite Hin', Hin, skipn_skipn. f_equal. lia.
Qed.

Lemma returns_in_for_loop {S} n (body : Z -> S -> M S) :
  (forall i acc, returns_in n (body i acc)) ->
  forall turns i acc, returns_in (turns * n) (for_loop turns i body acc).
Proof.
  intros Hb. induction turns as [|k IH]; intros i acc; simpl.
  - apply returns_in_ret.
  - apply returns_in_bind; [apply Hb | intros acc'; apply IH].
Qed.

Ltac returns_steps :=
  repeat lazymatch goal with
  | |- returns_in _ (bind _ _) => apply returns_in_bind; [|intros]
  | |- returns_in _ (ret _) => apply returns_in_ret
  | |- returns_in _ (emit _) => apply returns_in_emit
  | |- returns_in _ save_and_disable_interrupts => apply returns_in_save
  | |- returns_in _ (restore_interrupts _) => apply returns_in_restore
  | |- returns_in _ (read _) => apply returns_in_read
  | |- returns_in _ (wait_while _ busy) => apply returns_in_wait_busy
  | |- returns_in _ (wait_while _ tx_not_empty) => apply returns_in_wait_tx
  | |- returns_in _ (for_loop _ _ _ _) =>
      apply returns_in_for_loop; intros; cbv beta
  | |- returns_in _ (if ?c then _ else _) => destruct c
  end.

Lemma probe_returns pin clk : returns_in 28 (probe pin clk).
Proof.
  unfold probe, exit_quad, read_id, read_id_turn, set_bits, clear_bits, write.
  eapply returns_in_eq; [returns_steps | reflexivity].
Qed.

Lemma bring_up_returns clk eid : returns_in 19 (bring_up clk (PSRAM_ID, eid)).
Proof.
  unfold bring_up. cbv zeta. cbn [fst snd]. rewrite Z.eqb_refl.
  cbn [negb].
  unfold enable_quad, command_turn, configure_map_mode, set_bits,
    clear_bits, write.
  eapply returns_in_eq; [returns_steps | reflexivity].
Qed.

(** On hardware that is always ready, [setup_psram] returns to its
    caller, whatever identity bytes it reads. *)
Lemma setup_psram_returns pin clk s :
  Forall ready (inputs s) -> (47 <= List.length (inputs s))%nat ->
  fst (setup_psram pin clk s) <> None.
Proof.
  intros Hr Hn. unfold setup_psram, bind.
  destruct (probe_returns pin clk s Hr ltac:(lia)) as [Hsome Hin].
  destruct (probe pin clk s) as [[[kgd eid]|] s1]; cbn [fst snd] in *;
    [|congruence].
  destruct (Z.eqb_spec kgd PSRAM_ID) as [E|E].
  - subst kgd. apply bring_up_returns.
    + rewrite Hin. apply ready_skipn, Hr.
    + rewrite Hin, length_skipn. lia.
  - unfold bring_up. cbv zeta. cbn [fst snd].
    destruct (Z.eqb_spec kgd PSRAM_ID) as [E'|_]; [contradiction|].
    simpl. discriminate.
Qed.

Lemma bind_some {A B} (m : M A) (f : A -> M B) s b :
  fst (bind m f s) = Some b ->
  exists a s1, m s = (Some a, s1) /\ fst (f a s1) = Some b.
Proof.
  unfold bind. destruct (m s) as [[a|] s1]; simpl; intros H.
  - exists a, s1. auto.
  - discriminate.
Qed.

(** Past the identity check, whatever [bring_up] returns is the capacity
    computed from the extended id. *)
Lemma bring_up_capacity clk eid s size :
  fst (bring_up clk (PSRAM_ID, eid) s) = Some size ->
  size = psram_size_of eid.
Proof.
  unfold bring_up. cbv zeta. cbn [fst snd]. rewrite Z.eqb_refl.
  cbn [negb]. intros H.
  repeat (apply bind_some in H; destruct H as (? & ? & _ & H)).
  simpl in H. congruence.
Qed.


(** C7: whatever the hardware answers and however far the run gets,
    every access to the bus controller that [setup_psram] logs happened
    with interrupts disabled, and whenever [setup_psram] returns, on the
    identification failure as on the complete bring-up, the interrupt
    mask is the one it was called with. *)
Theorem setup_psram_critical_sections pin clk s :
  exists entries,
    log (snd (setup_psram pin clk s)) = log s ++ entries
    /\ Forall bus_guarded entries
    /\ (fst (setup_psram pin clk s) <> None ->
        irq_off (snd (setup_psram pin clk s)) = irq_off s).
Proof.
  revert s. change (guarded (setup_psram pin clk)).
  unfold setup_psram. apply guarded_bind.
  - apply probe_guarded.
  - intros ids. apply bring_up_guarded.
Qed.

End WithSdk.

(** *** Concrete runs on the RP2350 layout *)


Lemma setup_psram_critical_sections_witness :
  irq_off (snd (setup_psram (sdk := rp2350) RP2350_XIP_CSI_PIN 150000000
                            (boot (prompt_device 0x5D 0x40))))
  = false
  /\ Forall bus_guarded
            (log (snd (setup_psram (sdk := rp2350) RP2350_XIP_CSI_PIN 150000000
                                   (boot (prompt_device 0x5D 0x40))))).
Proof.
  destruct (setup_psram_critical_sections (sdk := rp2350)
              RP2350_XIP_CSI_PIN 150000000 (boot (prompt_device 0x5D 0x40)))
    as (entries & Hlog & Hg & Hirq).
  split.
  - apply Hirq. vm_compute. discriminate.
  - rewrite Hlog. exact Hg.
Defined.

End PsramFacts.

Module BenchFacts.
Import Word WordFacts Bench.

(** *** Loop invariants *)

Lemma pass_invariant (Inv : run -> Prop) (G : Z -> Prop) body :
  (forall i r, G i -> Inv r -> Inv (body i r)) ->
  forall turns u r,
    (forall j, u <= j < u + Z.of_nat turns -> G (s32 j)) ->
    Inv r -> Inv (pass turns u body r).
Proof.
  intros Hbody. induction turns as [|k IH]; intros u r HG Hr; simpl.
  - exact Hr.
  - apply IH.
    + intros j Hj. apply HG. lia.
    + apply Hbody; [apply HG; lia | exact Hr].
Qed.

Lemma iter_invariant {A} (Inv : A -> Prop) (f : A -> A) :
  (forall a, Inv a -> Inv (f a)) ->
  forall n a, Inv a -> Inv (Nat.iter n f a).
Proof.
  intros Hf. induction n as [|k IH]; intros a Ha; simpl.
  - exact Ha.
  - apply Hf, IH, Ha.
Qed.

(** *** Masked indices *)

Lemma mask_of_power n :
  power_of_two n -> exists k, 0 <= k < 32 /\ n = 2 ^ k /\ u32 (n - 1) = Z.ones k.
Proof.
  intros (k & Hk & E). exists k. split; [exact Hk|]. split; [exact E|].
  subst n. rewrite Z.ones_equiv, <- Z.sub_1_r. apply u32_id.
  assert (0 < 2 ^ k) by (apply Z.pow_pos_nonneg; lia).
  assert (2 ^ k < 2 ^ 32) by (apply Z.pow_lt_mono_r; lia).
  lia.
Qed.

Lemma mask_index_bound seed n :
  power_of_two n -> 0 <= mask_index seed n < n.
Proof.
  intros Hn. destruct (mask_of_power n Hn) as (k & Hk & E & Hm).
  unfold mask_index. rewrite Hm, Z.land_ones by lia. subst n.
  apply Z.mod_pos_bound. apply Z.pow_pos_nonneg; lia.
Qed.

Lemma power_of_two_range n : power_of_two n -> 1 <= n <= 2 ^ 31.
Proof.
  intros (k & Hk & E). subst n. split.
  - assert (0 < 2 ^ k) by (apply Z.pow_pos_nonneg; lia). lia.
  - apply Z.pow_le_mono_r; lia.
Qed.

(** *** Bounds of the accesses *)

Lemma step_in_bounds buffer n read rnd i r :
  power_of_two n -> 0 <= i < n ->
  Forall (in_bounds n) (accesses r) ->
  Forall (in_bounds n) (accesses (step buffer n read rnd i r)).
Proof.
  intros Hn Hi Hr.
  destruct rnd, read; simpl; apply Forall_app; (split; [exact Hr|]);
    apply Forall_cons; try apply Forall_nil; unfold in_bounds; simpl;
    try exact Hi; apply mask_index_bound; exact Hn.
Qed.

(** *** Reads leave the memory alone *)

Lemma read_step_ram buffer n rnd i r :
  ram (step buffer n true rnd i r) = ram r.
Proof. destruct rnd; reflexivity. Qed.

(** *** The index sequence of the random modes *)

Lemma lcg_indices_app size a b seed :
  lcg_indices size (a + b) seed
  = lcg_indices size a seed ++ lcg_indices size b (Nat.iter a lcg seed).
Proof.
  revert seed. induction a as [|k IH]; intros seed.
  - reflexivity.
  - simpl lcg_indices at 1 2. rewrite IH. simpl app. do 3 f_equal.
    clear IH. induction k as [|j IHj]; [reflexivity|].
    simpl. simpl in IHj. rewrite IHj. reflexivity.
Qed.

Lemma rnd_pass_indices buffer n read :
  1 <= n <= 2 ^ 32 ->
  forall turns u r,
    map index_of (accesses (pass turns u (step buffer n read true) r))
    = map index_of (accesses r) ++ lcg_indices n turns (seed_value r)
    /\ seed_value (pass turns u (step buffer n read true) r)
       = Nat.iter turns lcg (seed_value r).
Proof.
  intros Hn.
  assert (Hm : u32 (n - 1) = n - 1) by (apply u32_id; lia).
  induction turns as [|k IH]; intros u r.
  - simpl. rewrite app_nil_r. auto.
  - cbn [pass]. destruct (IH (u + 1) (step buffer n read true (s32 u) r))
      as [Hi Hs].
    rewrite Hi, Hs. clear Hi Hs IH.
    assert (Hseed : seed_value (step buffer n read true (s32 u) r)
                    = lcg (seed_value r)) by (destruct read; reflexivity).
    assert (Hacc : map index_of (accesses (step buffer n read true (s32 u) r))
                   = map index_of (accesses r)
                     ++ [Z.land (lcg (seed_value r)) (n - 1)]).
    { destruct read; simpl; rewrite map_app; simpl;
        unfold mask_index; rewrite Hm; reflexivity. }
    rewrite Hseed, Hacc, <- app_assoc. split.
    + reflexivity.
    + clear. induction k as [|j IHj]; [reflexivity|].
      simpl. simpl in IHj. rewrite IHj. reflexivity.
Qed.

Lemma rnd_loops_indices buffer n read passes r0 :
  1 <= n <= 2 ^ 32 -> accesses r0 = [] ->
  map index_of
      (accesses (Nat.iter passes (pass (Z.to_nat n) 0 (step buffer n read true)) r0))
  = lcg_indices n (passes * Z.to_nat n) (seed_value r0)
  /\ seed_value (Nat.iter passes (pass (Z.to_nat n) 0 (step buffer n read true)) r0)
     = Nat.iter (passes * Z.to_nat n) lcg (seed_value r0).
Proof.
  intros Hn H0. induction passes as [|p IH].
  - simpl. rewrite H0. auto.
  - destruct IH as [Hi Hs].
    rewrite Nat.iter_succ.
    destruct (rnd_pass_indices buffer n read Hn (Z.to_nat n) 0
                (Nat.iter p (pass (Z.to_nat n) 0 (step buffer n read true)) r0))
      as [Hi' Hs'].
    rewrite Hi', Hs', Hi, Hs.
    replace (S p * Z.to_nat n)%nat with (p * Z.to_nat n + Z.to_nat n)%nat by lia.
    split.
    + symmetry. apply lcg_indices_app.
    + symmetry. rewrite Nat.add_comm. apply Nat.iter_add.
Qed.

(** C6: for every power-of-two sizeWords, the subscripts of a random-mode
    run of [memory_test] are the sequence of the generator started at
    0xDEADBEEF, seed = seed * 1103515245 + 12345 modulo 2^32 and index =
    seed & (sizeWords - 1), taken for N = loop_count * sizeWords steps;
    so two runs, whatever their buffers, memories, directions and clock
    readings, make the same ordered index sequence. *)
Theorem random_indices_reproducible {globals : Globals} n scale
  start finish buffer read st buffer' read' st' :
  power_of_two n ->
  let N := (Z.to_nat (loop_count scale) * Z.to_nat n)%nat in
  map index_of (trace (snd (memory_test start finish buffer n scale read true st)))
  = map index_of (trace st) ++ lcg_indices n N 0xDEADBEEF
  /\ map index_of (accesses (run_loops buffer n scale read true (mem st)))
     = map index_of (accesses (run_loops buffer' n scale read' true (mem st'))).
Proof.
  intros Hn N. pose proof (power_of_two_range n Hn) as Hr.
  assert (Hb : 1 <= n <= 2 ^ 32) by lia.
  assert (H : forall b rd m,
             map index_of (accesses (run_loops b n scale rd true m))
             = lcg_indices n N 0xDEADBEEF).
  { intros b rd m. unfold run_loops.
    apply (rnd_loops_indices b n rd _ (mk_run m [] 0xDEADBEEF 0) Hb eq_refl). }
  split.
  - unfold memory_test. simpl. rewrite map_app, H. reflexivity.
  - rewrite !H. reflexivity.
Qed.

Lemma random_indices_reproducible_witness :
  power_of_two 4
  /\ map index_of (accesses (run_loops 0x20000000 4 1 true true blank_ram))
     = map index_of (accesses (run_loops 0x11000000 4 1 false true board_memory))
  /\ map index_of
         (trace (snd (memory_test (globals := sample_layout)
                                  0 7 0x20000000 4 1 true true
                                  (mk_state blank_ram 0 []))))
     = map index_of [] ++ lcg_indices 4 (100 * 4) 0xDEADBEEF.
Proof.
  assert (P : power_of_two 4) by (exists 2; split; [lia | reflexivity]).
  split; [exact P|].
  destruct (random_indices_reproducible (globals := sample_layout)
              4 1 0 7 0x20000000 true
              (mk_state blank_ram 0 []) 0x11000000 false
              (mk_state board_memory 0 []) P) as [H1 H2].
  split; [exact H2 | exact H1].
Defined.

(** C8: for every power-of-two buffer_size (at least 1, a [uint32_t]),
    every subscript [seed & (buffer_size - 1)] is below buffer_size, and
    every access of [memory_test], in each of its four modes, has its
    subscript within [0, buffer_size). *)
Theorem memory_test_in_bounds buffer n scale read rnd m :
  power_of_two n ->
  (forall seed, 0 <= mask_index seed n < n)
  /\ Forall (in_bounds n) (accesses (run_loops buffer n scale read rnd m)).
Proof.
  intros Hn. split; [intros seed; apply mask_index_bound, Hn|].
  pose proof (power_of_two_range n Hn) as Hr.
  unfold run_loops. apply iter_invariant; [|apply Forall_nil].
  intros r Hacc.
  apply (pass_invariant (fun r => Forall (in_bounds n) (accesses r))
                        (fun i => 0 <= i < n)); [| |exact Hacc].
  - intros i r' Hi Hr'. apply step_in_bounds; assumption.
  - intros j Hj. rewrite Z2Nat.id in Hj by lia.
    rewrite s32_id; lia.
Qed.

Lemma memory_test_in_bounds_witness :
  power_of_two 8
  /\ Forall (in_bounds 8) (accesses (run_loops 0x20000000 8 1 false true blank_ram))
  /\ Forall (in_bounds 8) (accesses (run_loops 0x20000000 8 1 true false blank_ram)).
Proof.
  assert (P : power_of_two 8) by (exists 3; split; [lia | reflexivity]).
  split; [exact P|]. split.
  - apply (memory_test_in_bounds 0x20000000 8 1 false true blank_ram P).
  - apply (memory_test_in_bounds 0x20000000 8 1 true false blank_ram P).
Defined.

(** A store to another word is not seen by a load. *)
Lemma cells_store_other m a b v : b <> a -> cells (store m a v) b = cells m b.
Proof.
  intros Hn. unfold store. destruct (writable m a); [|reflexivity].
  simpl. destruct (Z.eqb_spec b a); [contradiction | reflexivity].
Qed.

Lemma load_store_other m a b v : b <> a -> load (store m a v) b = load m b.
Proof. intros Hn. unfold load. rewrite cells_store_other by exact Hn. reflexivity. Qed.

Lemma read_loops_ram buffer n scale rnd m :
  ram (run_loops buffer n scale true rnd m) = m.
Proof.
  unfold run_loops.
  apply (iter_invariant (fun r => ram r = m)); [|reflexivity].
  intros r Hr.
  apply (pass_invariant (fun r => ram r = m) (fun _ => True));
    [| intros; exact I | exact Hr].
  intros i r' _ Hr'. rewrite read_step_ram. exact Hr'.
Qed.

(** C9 fails on the code when the buffer holds the variable [s_value]:
    a sequential read of the one-word buffer at the address of [s_value],
    which holds 7, with loop_scale 1, adds the word up 100 times and
    stores the sum, 700, to [s_value], that is, to word 0 of the buffer. *)
Theorem memory_test_read_changes_s_value :
  load (ram_with_value (globals := sample_layout) 7)
       (element (s_value_address (Globals := sample_layout)) 0)
  = 7
  /\ load (mem (snd (memory_test (globals := sample_layout) 0 1
                       (s_value_address (Globals := sample_layout)) 1 1
                       true false
                       (mk_state (ram_with_value (globals := sample_layout) 7)
                                 7 []))))
          (element (s_value_address (Globals := sample_layout)) 0)
     = 700.
Proof. vm_compute. split; reflexivity. Qed.

(** C9, amended: for every buffer, buffer_size and loop_scale such that the
    variable [s_value] is not one of the buffer_size words of the buffer,
    a call of [memory_test] with read = true, sequential or random, leaves
    every word of the buffer unchanged.  The call stores to one word only,
    that of [s_value], after the loops; no access of the loops is a
    store. *)
Theorem memory_test_read_only {globals : Globals}
  start finish buffer n scale rnd st :
  outside buffer n s_value_address ->
  (forall i, 0 <= i < n ->
     load (mem (snd (memory_test start finish buffer n scale true rnd st)))
          (element buffer i)
     = load (mem st) (element buffer i))
  /\ mem (snd (memory_test start finish buffer n scale true rnd st))
     = store (mem st) s_value_address
             (s_value (snd (memory_test start finish buffer n scale true rnd st)))
  /\ Forall (fun a => is_store a = false)
            (accesses (run_loops buffer n scale true rnd (mem st))).
Proof.
  intros Hout.
  assert (Hmem : mem (snd (memory_test start finish buffer n scale true rnd st))
                 = store (mem st) s_value_address
                     (s_value (snd (memory_test start finish buffer n scale
                                                true rnd st)))).
  { unfold memory_test. cbn [snd mem s_value].
    rewrite read_loops_ram. reflexivity. }
  split; [|split; [exact Hmem|]].
  - intros i Hi. rewrite Hmem. apply load_store_other.
    intros E. exact (Hout i Hi (eq_sym E)).
  - unfold run_loops. apply iter_invariant; [|apply Forall_nil].
    intros r Hr.
    apply (pass_invariant (fun r => Forall (fun a => is_store a = false)
                                           (accesses r)) (fun _ => True));
      [| intros; exact I | exact Hr].
    intros i r' _ Hr'. destruct rnd; simpl; apply Forall_app;
      (split; [exact Hr'|]); apply Forall_cons; auto.
Qed.

Lemma memory_test_read_only_witness :
  load (mem (snd (memory_test (globals := sample_layout) 0 1 0x20000000 4 1
                              true true (mk_state blank_ram 0 []))))
       (element 0x20000000 3)
  = load (mem (mk_state blank_ram 0 [])) (element 0x20000000 3).
Proof.
  destruct (memory_test_read_only (globals := sample_layout) 0 1 0x20000000
              4 1 true (mk_state blank_ram 0 [])) as [H _].
  - intros i Hi. unfold element, u32. rewrite Z.mod_small by lia.
    cbn [s_value_address sample_layout]. lia.
  - apply H. lia.
Defined.

(** *** The sequential write *)

Lemma element_injective buffer i j :
  0 <= i < 2 ^ 30 -> 0 <= j < 2 ^ 30 ->
  element buffer i = element buffer j -> i = j.
Proof.
  unfold element, u32. intros Hi Hj E.
  pose proof (Z.div_mod (buffer + 4 * i) (2 ^ 32) ltac:(lia)) as Di.
  pose proof (Z.div_mod (buffer + 4 * j) (2 ^ 32) ltac:(lia)) as Dj.
  rewrite E in Di. lia.
Qed.

Lemma load_store_same m a v :
  writable m a = true -> load (store m a v) a = u32 v.
Proof.
  intros Hw. unfold load, store. rewrite Hw. simpl. rewrite Z.eqb_refl.
  unfold u32. apply Z.mod_mod. lia.
Qed.

Lemma writable_store m a v : writable (store m a v) = writable m.
Proof. unfold store. destruct (writable m a); reflexivity. Qed.

Lemma u32_add_l a b : u32 (u32 a + b) = u32 (a + b).
Proof. unfold u32. apply Z.add_mod_idemp_l. lia. Qed.

(** One pass of the sequential write from counter value [value r]: each
    word of the turns made holds the value of the last turn that wrote it,
    the rest of the memory is untouched. *)
Lemma seq_write_pass buffer :
  forall turns u r,
    0 <= u -> u + Z.of_nat turns <= 2 ^ 31 ->
    (forall j, u <= j < u + Z.of_nat turns ->
               writable (ram r) (element buffer j) = true) ->
    u32 (value (pass turns u (seq_write_step buffer) r))
    = u32 (value r + Z.of_nat turns)
    /\ writable (ram (pass turns u (seq_write_step buffer) r)) = writable (ram r)
    /\ (forall j, u <= j < u + Z.of_nat turns ->
                  (forall j', j < j' < u + Z.of_nat turns ->
                              element buffer j' <> element buffer j) ->
                  load (ram (pass turns u (seq_write_step buffer) r))
                       (element buffer j)
                  = u32 (value r + (j - u)))
    /\ (forall a, (forall j, u <= j < u + Z.of_nat turns -> a <> element buffer j) ->
                  cells (ram (pass turns u (seq_write_step buffer) r)) a
                  = cells (ram r) a).
Proof.
  induction turns as [|k IH]; intros u r Hu Hmax Hw.
  - cbn [pass]. rewrite Z.add_0_r. repeat split; try reflexivity.
    intros j Hj. simpl in Hj. lia.
  - cbn [pass]. rewrite Nat2Z.inj_succ in *.
    rewrite (s32_id u) by lia.
    set (r1 := seq_write_step buffer u r).
    assert (Hw1 : writable (ram r1) = writable (ram r))
      by apply writable_store.
    destruct (IH (u + 1) r1) as (Hv & Hwr & Hld & Hfr); [lia | lia | |].
    { intros j Hj. rewrite Hw1. apply Hw. lia. }
    set (r' := pass k (u + 1) (seq_write_step buffer) r1) in *.
    split; [|split; [|split]].
    + rewrite Hv. unfold r1. simpl. rewrite u32_add_l. f_equal. lia.
    + rewrite Hwr. exact Hw1.
    + intros j Hj Hlast. destruct (Z.eq_dec j u) as [E|E].
      * subst j. unfold load. rewrite Hfr.
        -- change (u32 (cells (ram r1) (element buffer u)))
             with (load (ram r1) (element buffer u)).
           unfold r1. simpl. rewrite load_store_same by (apply Hw; lia).
           f_equal. lia.
        -- intros j Hj' E. symmetry in E. revert E. apply Hlast. lia.
      * rewrite Hld.
        -- unfold r1. simpl. rewrite u32_add_l. f_equal. lia.
        -- lia.
        -- intros j' Hj'. apply Hlast. lia.
    + intros a Ha. rewrite Hfr.
      * unfold r1. simpl. apply cells_store_other. apply Ha. lia.
      * intros j Hj. apply Ha. lia.
Qed.

(** After [passes] full passes the counter is [passes * n] (modulo 2^32)
    and the buffer is still writable. *)
Lemma seq_write_passes buffer n m :
  0 <= n <= 2 ^ 31 ->
  (forall j, 0 <= j < n -> writable m (element buffer j) = true) ->
  forall passes,
    let r := Nat.iter passes (pass (Z.to_nat n) 0 (seq_write_step buffer))
                      (mk_run m [] 0xDEADBEEF 0) in
    u32 (value r) = u32 (Z.of_nat passes * n)
    /\ writable (ram r) = writable m.
Proof.
  intros Hn Hw. induction passes as [|p IH]; cbv zeta in *.
  - simpl. auto.
  - rewrite Nat.iter_succ. destruct IH as [Hv Hwr].
    destruct (seq_write_pass buffer (Z.to_nat n) 0
                (Nat.iter p (pass (Z.to_nat n) 0 (seq_write_step buffer))
                          (mk_run m [] 0xDEADBEEF 0)))
      as (Hv' & Hwr' & _ & _); [lia | rewrite Z2Nat.id; lia | |].
    { intros j Hj. rewrite Hwr. apply Hw. rewrite Z2Nat.id in Hj; lia. }
    split.
    + rewrite Hv', Z2Nat.id by lia. rewrite <- u32_add_l, Hv, u32_add_l.
      f_equal. lia.
    + rewrite Hwr'. exact Hwr.
Qed.

(** What the loops of a sequential write leave in a word of the buffer
    that no later turn of a pass writes again. *)
Lemma seq_write_loops buffer n scale m j :
  1 <= n <= 2 ^ 31 ->
  1 <= loop_count scale ->
  (forall i, 0 <= i < n -> writable m (element buffer i) = true) ->
  0 <= j < n ->
  (forall j', j < j' < n -> element buffer j' <> element buffer j) ->
  load (ram (run_loops buffer n scale false false m)) (element buffer j)
  = u32 ((loop_count scale - 1) * n + j).
Proof.
  intros Hn Hl Hw Hj Hlast. unfold run_loops.
  change (step buffer n false false) with (seq_write_step buffer).
  set (L := loop_count scale) in *.
  replace (Z.to_nat L) with (S (Z.to_nat (L - 1))) by lia.
  rewrite Nat.iter_succ.
  destruct (seq_write_passes buffer n m ltac:(lia) Hw (Z.to_nat (L - 1)))
    as [Hv Hwr].
  set (r := Nat.iter (Z.to_nat (L - 1)) (pass (Z.to_nat n) 0 (seq_write_step buffer))
                     (mk_run m [] 0xDEADBEEF 0)) in *.
  destruct (seq_write_pass buffer (Z.to_nat n) 0 r)
    as (_ & _ & Hld & _); [lia | rewrite Z2Nat.id; lia | |].
  { intros i Hi. rewrite Hwr. apply Hw. rewrite Z2Nat.id in Hi; lia. }
  rewrite Hld.
  - rewrite Z.sub_0_r, <- u32_add_l, Hv, u32_add_l, Z2Nat.id by lia.
    reflexivity.
  - rewrite Z2Nat.id; lia.
  - intros j' Hj'. apply Hlast. rewrite Z2Nat.id in Hj'; lia.
Qed.

(** C10 fails on the code in three cases.  On read-only memory the stores
    change nothing: word 3 of a 4-word buffer in flash holds 0, not 399.
    When the buffer is the variable [s_value] itself, the store of line
    404 comes last: word 0 holds loop_count = 100, not 99.  When the buffer
    is longer than the address space, here 2^30 + 1 words, its last word is
    also its first: word 0 holds the value written to word 2^30. *)
Theorem sequential_write_exceptions :
  load (mem (snd (memory_test (globals := sample_layout) 0 9 0x10008000 4 1
                              false false (mk_state board_memory 0 []))))
       (element 0x10008000 3)
  <> ((loop_count 1 - 1) * 4 + 3) mod 2 ^ 32
  /\ load (mem (snd (memory_test (globals := sample_layout) 0 9
                       (s_value_address (Globals := sample_layout)) 1 1
                       false false (mk_state blank_ram 0 []))))
          (element (s_value_address (Globals := sample_layout)) 0)
     <> ((loop_count 1 - 1) * 1 + 0) mod 2 ^ 32
  /\ load (mem (snd (memory_test (globals := sample_layout) 0 9 0x20000000
                       1073741825 1 false false (mk_state blank_ram 0 []))))
          (element 0x20000000 0)
     <> ((loop_count 1 - 1) * 1073741825 + 0) mod 2 ^ 32.
Proof.
  split; [vm_compute; discriminate|]. split; [vm_compute; discriminate|].
  unfold memory_test. cbn [snd mem].
  rewrite load_store_other by (vm_compute; discriminate).
  change (element 0x20000000 0) with (element 0x20000000 1073741824).
  rewrite seq_write_loops.
  - vm_compute. discriminate.
  - lia.
  - vm_compute. discriminate.
  - intros i Hi. reflexivity.
  - lia.
  - intros j' Hj'. lia.
Qed.

(** C10, amended: a sequential write over a buffer of n words, 1 <= n <=
    2^30, all of them writable and none of them the variable [s_value],
    with loop_count = 100 * loop_scale >= 1, leaves in every word i the
    value ((loop_count - 1) * n + i) mod 2^32: the counter values of the
    last pass. *)
Theorem sequential_write_result {globals : Globals}
  start finish buffer n scale st i :
  1 <= n <= 2 ^ 30 ->
  1 <= loop_count scale ->
  (forall j, 0 <= j < n -> writable (mem st) (element buffer j) = true) ->
  outside buffer n s_value_address ->
  0 <= i < n ->
  load (mem (snd (memory_test start finish buffer n scale false false st)))
       (element buffer i)
  = ((loop_count scale - 1) * n + i) mod 2 ^ 32.
Proof.
  intros Hn Hl Hw Hout Hi. unfold memory_test. cbn [snd mem].
  rewrite load_store_other by (intros E; exact (Hout i Hi (eq_sym E))).
  apply seq_write_loops; try assumption; try lia.
  intros j' Hj' E. apply element_injective in E; lia.
Qed.

Lemma sequential_write_result_witness :
  load (mem (snd (memory_test (globals := sample_layout) 0 9 0x20000000 4 1
                              false false (mk_state blank_ram 0 []))))
       (element 0x20000000 3)
  = 399.
Proof.
  rewrite (sequential_write_result (globals := sample_layout) 0 9 0x20000000
             4 1 (mk_state blank_ram 0 []) 3).
  - reflexivity.
  - lia.
  - vm_compute. discriminate.
  - intros j Hj. reflexivity.
  - intros j Hj. unfold element, u32. rewrite Z.mod_small by lia.
    cbn [s_value_address sample_layout]. lia.
  - lia.
Defined.

(** *** The correctness pass *)

(** The two comparisons of the filter cover every address. *)
Lemma checked_region_always buffer : checked_region buffer = true.
Proof.
  unfold checked_region. destruct (Z.ltb_spec buffer 0x10000000) as [H|H].
  - reflexivity.
  - simpl. apply Z.geb_le. lia.
Qed.

Lemma test_one_checked forwarded c m :
  checked_line c (snd (test_one forwarded c m)).
Proof.
  unfold test_one, checked_line. rewrite checked_region_always.
  destruct (check_words forwarded (Z.to_nat (buffer_size c)) 0 (buffer c) m)
    as [[|] m']; simpl; auto.
Qed.

Lemma test_mem_checked forwarded table :
  forall m, Forall2 checked_line table (snd (test_mem forwarded table m)).
Proof.
  induction table as [|c rest IH]; intros m.
  - constructor.
  - cbn [test_mem].
    pose proof (test_one_checked forwarded c m) as Hc.
    destruct (test_one forwarded c m) as [m1 line].
    pose proof (IH m1) as Hrest.
    destruct (test_mem forwarded rest m1) as [m2 lines].
    constructor; assumption.
Qed.

(** C1 fails on the code: the region filter of [test_mem] holds for every
    address, so for every descriptor of the table, those of the excluded
    array [s_testROM] included, the check is run and the line printed is
    "Passed Mem Test" or "Failed Mem Test", never "Skipped Mem Test",
    whether or not the build loads the word again for the comparison. *)
Theorem test_mem_never_skips forwarded s_test_memory s_testROM m :
  let table := s_memory_test_config s_test_memory s_testROM in
  Forall2 checked_line table (snd (test_mem forwarded table m))
  /\ Forall (fun line => format_of line <> "Skipped Mem Test, %s\n"%string)
            (snd (test_mem forwarded table m))
  /\ existsb (excluded s_testROM) table = true.
Proof.
  intros table. pose proof (test_mem_checked forwarded table m) as H.
  split; [exact H|]. split.
  - induction H as [|c line cs lines Hc _ IH]; constructor; [|exact IH].
    destruct Hc as [E|E]; subst line; simpl; discriminate.
  - unfold table, s_memory_test_config, excluded. cbn [existsb buffer].
    rewrite Z.eqb_refl. apply orb_true_iff. right. reflexivity.
Qed.

(** On a board whose flash is read-only, the first word written to the
    array in flash does not read back: the excluded descriptor is reported
    as failed by a build that loads the word again, and as passed by a
    build that compares the value it has just stored. *)
Lemma test_mem_rom_descriptor :
  snd (test_mem false [mk_config 0x10008000 TEST_SIZE LOOP_SCALE true false
                                 "SEQ ROM READ" 0] board_memory)
  = [Failed "SEQ ROM READ"]
  /\ snd (test_mem true [mk_config 0x10008000 TEST_SIZE LOOP_SCALE true false
                                   "SEQ ROM READ" 0] board_memory)
     = [Passed "SEQ ROM READ"].
Proof. split; vm_compute; reflexivity. Qed.

End BenchFacts.

(* ===================================================================== *)
(** * Part III: further properties of the program                         *)
(* ===================================================================== *)

Module TimingMore.
Import Word WordFacts Timing TimingFacts.

(** The stored clock period when it fits the [int] it is kept in. *)
Lemma clock_period_fs_exact clock_hz :
  465662 <= clock_hz <= INT_MAX ->
  clock_period_fs clock_hz = 1000000000000000 / clock_hz
  /\ 465661 <= clock_period_fs clock_hz <= INT_MAX.
Proof.
  intros Hc. unfold INT_MAX in *.
  assert (Hp : 465661 <= 1000000000000000 / clock_hz <= 2147483647).
  { split.
    - apply Z.div_le_lower_bound; lia.
    - apply Z.lt_succ_r. apply Z.div_lt_upper_bound; lia. }
  unfold clock_period_fs. rewrite Z.quot_div_nonneg by lia.
  rewrite s32_id by lia. split; [reflexivity | exact Hp].
Qed.

(** X1 (lines 110-113): for every system clock whose period in
    femtoseconds fits an [int] (465,662 Hz and above), [maxSelect] is the
    largest count of 64-cycle units whose duration, at the stored period,
    does not exceed the 8 us the comment asks for. *)
Theorem maxSelect_window clock_hz :
  465662 <= clock_hz <= INT_MAX ->
  0 <= maxSelect clock_hz
  /\ 64 * maxSelect clock_hz * clock_period_fs clock_hz <= 8000000000
  /\ 8000000000 < 64 * (maxSelect clock_hz + 1) * clock_period_fs clock_hz.
Proof.
  intros Hc. destruct (clock_period_fs_exact clock_hz Hc) as [_ Hp].
  unfold maxSelect. set (p := clock_period_fs clock_hz) in *.
  rewrite Z.quot_div_nonneg by lia.
  pose proof (Z.div_mod (125 * 1000000) p ltac:(lia)) as E.
  pose proof (Z.mod_pos_bound (125 * 1000000) p ltac:(lia)) as B.
  assert (0 <= 125 * 1000000 / p) by (apply Z.div_pos; lia).
  nia.
Qed.

Lemma maxSelect_window_witness :
  maxSelect 150000000 = 18
  /\ 64 * maxSelect 150000000 * clock_period_fs 150000000 <= 8000000000.
Proof.
  destruct (maxSelect_window 150000000) as (_ & H & _);
    [unfold INT_MAX; lia|].
  split; [reflexivity | exact H].
Defined.

(** X2 (lines 110-114): in the range where line 114 does not overflow, the
    programmed deselect count plus the half divider the controller adds,
    [ceil(clockDivider / 2)], lasts at least 18 ns at the real clock rate,
    and one cycle less would fall short at the stored period. *)
Theorem minDeselect_guarantee clock_hz :
  469598 <= clock_hz <= 2014483647 ->
  let cycles := minDeselect clock_hz (clockDivider clock_hz)
                + ceil_div (clockDivider clock_hz) 2 in
  18000000 * clock_hz <= cycles * 1000000000000000
  /\ (cycles - 1) * clock_period_fs clock_hz < 18000000.
Proof.
  intros Hc cycles.
  assert (Hd : 1 <= clockDivider clock_hz < INT_MAX).
  { apply clockDivider_nonneg; unfold max_psram_freq, INT_MAX; lia. }
  destruct (minDeselect_spec clock_hz (clockDivider clock_hz)) as [Ep Em];
    [unfold INT_MAX; lia | lia |].
  assert (Ec : cycles = ceil_div 18000000 (1000000000000000 / clock_hz)).
  { unfold cycles. rewrite Em. unfold spec_minDeselect.
    rewrite (ceil_div_formula (clockDivider clock_hz) 2) by lia.
    replace (clockDivider clock_hz + 2 - 1) with (clockDivider clock_hz + 1)
      by lia. lia. }
  rewrite Ep, Ec. clear Ec cycles Em Ep.
  set (p := 1000000000000000 / clock_hz).
  assert (Hp : 465661 <= p <= 2129483648).
  { unfold p. split.
    - apply Z.div_le_lower_bound; lia.
    - apply Z.lt_succ_r. apply Z.div_lt_upper_bound; lia. }
  pose proof (ceil_div_spec 18000000 p ltac:(lia)) as Hq.
  assert (Hpc : p * clock_hz <= 1000000000000000).
  { unfold p. rewrite Z.mul_comm. apply Z.mul_div_le. lia. }
  split; [|lia].
  assert (0 <= ceil_div 18000000 p) by nia.
  nia.
Qed.

Lemma minDeselect_guarantee_witness :
  minDeselect 150000000 (clockDivider 150000000)
  + ceil_div (clockDivider 150000000) 2 = 3
  /\ 18000000 * 150000000 <= 3 * 1000000000000000.
Proof.
  destruct (minDeselect_guarantee 150000000) as [H _]; [lia|].
  split; [reflexivity | exact H].
Defined.

(** X3 (lines 99-108): for every system clock up to 200,000,001 Hz the
    divider is 1 or 2, the bus clock [clock_hz / clockDivider] (integer
    division) is at most 100 MHz and the receive delay equals the divider;
    from 200,000,002 Hz up to 266 MHz the divider stays 2 and the receive
    delay is 3. *)
Theorem rxdelay_by_clock clock_hz :
  0 < clock_hz <= 266000000 ->
  (clock_hz <= 200000001 ->
   (clockDivider clock_hz = 1 \/ clockDivider clock_hz = 2)
   /\ clock_hz / clockDivider clock_hz <= 100000000
   /\ rxdelay clock_hz (clockDivider clock_hz) = clockDivider clock_hz)
  /\ (200000001 < clock_hz ->
      clockDivider clock_hz = 2
      /\ rxdelay clock_hz (clockDivider clock_hz) = 3).
Proof.
  intros Hc.
  assert (Hm : 0 < max_psram_freq) by reflexivity.
  assert (Ed : clockDivider clock_hz = spec_divider max_psram_freq clock_hz).
  { apply clock_divider_for_spec; unfold max_psram_freq, INT_MAX; lia. }
  unfold spec_divider, max_psram_freq in Ed.
  assert (Hcases : (clock_hz <= 100000000 /\ clockDivider clock_hz = 1)
                   \/ (100000000 < clock_hz /\ clockDivider clock_hz = 2)).
  { destruct (Z_le_gt_dec clock_hz 133000000) as [Hle|Hgt].
    - rewrite (ceil_div_unique clock_hz 133000000 1) in Ed by lia.
      simpl in Ed. destruct (Z.gtb_spec clock_hz 100000000); [right | left]; lia.
    - rewrite (ceil_div_unique clock_hz 133000000 2) in Ed by lia.
      simpl in Ed. right. lia. }
  unfold rxdelay.
  destruct Hcases as [[Hlo E]|[Hhi E]]; rewrite E.
  - rewrite Z.quot_1_r. split.
    + intros _. rewrite Z.div_1_r.
      destruct (Z.gtb_spec clock_hz 100000000); [lia|]. auto with zarith.
    + intros H. lia.
  - rewrite Z.quot_div_nonneg by lia. split.
    + intros Hle.
      assert (clock_hz / 2 <= 100000000)
        by (apply Z.lt_succ_r, Z.div_lt_upper_bound; lia).
      destruct (Z.gtb_spec (clock_hz / 2) 100000000); [lia|]. auto with zarith.
    + intros Hgt.
      assert (100000000 < clock_hz / 2).
      { apply Z.lt_le_trans with (200000002 / 2); [reflexivity|].
        apply Z.div_le_mono; lia. }
      destruct (Z.gtb_spec (clock_hz / 2) 100000000); [|lia].
      split; reflexivity.
Qed.

Lemma rxdelay_by_clock_witness :
  rxdelay 150000000 (clockDivider 150000000) = clockDivider 150000000
  /\ rxdelay 250000000 (clockDivider 250000000) = 3.
Proof.
  split.
  - destruct (rxdelay_by_clock 150000000) as [H _]; [lia|].
    apply H. lia.
  - destruct (rxdelay_by_clock 250000000) as [_ H]; [lia|].
    apply H. lia.
Defined.

End TimingMore.

Module PsramMore.
Import Word WordFacts Psram PsramFacts.
Local Open Scope hw_scope.

(** *** Rules for [observes] *)

Lemma project_app {B} (view : event -> list B) l1 l2 :
  project view (l1 ++ l2) = project view l1 ++ project view l2.
Proof. unfold project. apply flat_map_app. Qed.

Lemma observes_weaken {A B} (view : event -> list B) (m : M A) (R R' : A -> list B -> Prop) :
  observes view m R -> (forall a l, R a l -> R' a l) -> observes view m R'.
Proof.
  intros Hm HR s a s' E. destruct (Hm s a s' E) as (es & Hl & Hr).
  exists es. auto.
Qed.

Lemma observes_ret {A B} (view : event -> list B) (x : A) :
  observes view (ret x) (fun a l => a = x /\ l = []).
Proof.
  intros s a s' E. inversion E; subst. exists []. rewrite app_nil_r. auto.
Qed.

Lemma observes_emit {B} (view : event -> list B) e :
  observes view (emit e) (fun _ l => l = view e).
Proof.
  intros s a s' E. inversion E; subst. exists [(irq_off s, e)].
  split; [reflexivity|]. unfold project. simpl. apply app_nil_r.
Qed.

Lemma observes_write {B} (view : event -> list B) r v :
  observes view (write r v) (fun _ l => l = view (reg_write r (u32 v))).
Proof. apply observes_emit. Qed.

Lemma observes_save {B} (view : event -> list B) :
  observes view save_and_disable_interrupts (fun _ l => l = view irq_save_disable).
Proof.
  intros s a s' E. inversion E; subst. exists [(irq_off s, irq_save_disable)].
  split; [reflexivity|]. unfold project. simpl. apply app_nil_r.
Qed.

Lemma observes_restore {B} (view : event -> list B) status :
  observes view (restore_interrupts status)
           (fun _ l => l = view (irq_restore status)).
Proof.
  intros s a s' E. inversion E; subst.
  exists [(irq_off s, irq_restore status)].
  split; [reflexivity|]. unfold project. simpl. apply app_nil_r.
Qed.

Lemma observes_read {B} (view : event -> list B) r :
  observes view (read r) (fun v l => l = view (reg_read r v)).
Proof.
  intros s a s' E. unfold read in E.
  destruct (inputs s) as [|v rest]; inversion E; subst.
  exists [(irq_off s, reg_read r (u32 v))].
  split; [reflexivity|]. unfold project. simpl. apply app_nil_r.
Qed.

Lemma observes_spin {B} (view : event -> list B) r again :
  (forall v, view (reg_read r v) = []) ->
  forall pending s s',
    spin r again pending s = (Some tt, s') ->
    exists entries, log s' = log s ++ entries /\ project view entries = [].
Proof.
  intros Hv. induction pending as [|v rest IH]; intros s s' E; simpl in E.
  - discriminate.
  - destruct (again (u32 v)).
    + apply IH in E. destruct E as (es & Hl & Hp). simpl in Hl.
      exists ((irq_off s, reg_read r (u32 v)) :: es).
      rewrite Hl, <- app_assoc. split; [reflexivity|].
      unfold project in *. simpl. rewrite Hv, Hp. reflexivity.
    + inversion E; subst. exists [(irq_off s, reg_read r (u32 v))].
      split; [reflexivity|]. unfold project. simpl. rewrite Hv. reflexivity.
Qed.

Lemma observes_wait {B} (view : event -> list B) r again :
  (forall v, view (reg_read r v) = []) ->
  observes view (wait_while r again) (fun _ l => l = []).
Proof.
  intros Hv s [] s' E. apply (observes_spin view r again Hv) in E. exact E.
Qed.

Lemma observes_bind {A B C} (view : event -> list C) (m : M A) (f : A -> M B)
  (R1 : A -> list C -> Prop) (R2 : A -> B -> list C -> Prop) :
  observes view m R1 -> (forall a, observes view (f a) (R2 a)) ->
  observes view (bind m f)
           (fun b l => exists a l1 l2, R1 a l1 /\ R2 a b l2 /\ l = l1 ++ l2).
Proof.
  intros Hm Hf s b s' E. unfold bind in E.
  destruct (m s) as [[a|] s1] eqn:Em; [|discriminate].
  destruct (Hm s a s1 Em) as (es1 & Hl1 & Hr1).
  destruct (Hf a s1 b s' E) as (es2 & Hl2 & Hr2).
  exists (es1 ++ es2). rewrite Hl2, Hl1, app_assoc. split; [reflexivity|].
  exists a, (project view es1), (project view es2).
  rewrite project_app. auto.
Qed.

(** Steps through a block by the shape of the computation, building the
    relation as it goes. *)
Ltac observe_steps :=
  repeat lazymatch goal with
  | |- observes _ (bind _ _) _ => eapply observes_bind; [|intros]
  | |- observes _ (ret _) _ => apply observes_ret
  | |- observes _ (wait_while _ _) _ =>
      apply observes_wait; intros; reflexivity
  | |- observes _ (write _ _) _ => apply observes_write
  | |- observes _ (read _) _ => apply observes_read
  | |- observes _ (emit _) _ => apply observes_emit
  | |- observes _ save_and_disable_interrupts _ => apply observes_save
  | |- observes _ (restore_interrupts _) _ => apply observes_restore
  end.

(** Takes apart what [observe_steps] has built. *)
Ltac observed :=
  repeat match goal with
  | H : exists _, _ |- _ => destruct H
  | H : _ /\ _ |- _ => destruct H
  end; subst.

(** Unrolls the constant-bound loops and decides the tests on the counter. *)
Ltac unroll_loops :=
  cbn [for_loop];
  repeat match goal with
  | |- context [?a + 1] =>
      let v := eval vm_compute in (a + 1) in change (a + 1) with v
  end;
  repeat match goal with
  | |- context [?a =? ?b] =>
      let v := eval vm_compute in (a =? b) in
      lazymatch v with
      | true => change (a =? b) with true
      | false => change (a =? b) with false
      end
  end;
  cbv iota.

Section WithSdk.
Context {sdk : SdkConstants}.

Lemma probe_sends pin clk :
  observes tx_word (probe pin clk) (fun _ l => l = probe_words).
Proof.
  eapply observes_weaken.
  - unfold probe, exit_quad, read_id, read_id_turn, set_bits, clear_bits.
    unroll_loops. observe_steps.
  - cbv beta. intros ids l H. observed. reflexivity.
Qed.

Lemma psram_size_of_nonzero eid : (psram_size_of eid =? 0) = false.
Proof.
  unfold psram_size_of.
  destruct ((eid =? 38) || (u8 (Z.shiftr eid 5) =? 2)); [reflexivity|].
  destruct (u8 (Z.shiftr eid 5) =? 0); [reflexivity|].
  destruct (u8 (Z.shiftr eid 5) =? 1); reflexivity.
Qed.

Lemma bring_up_sends clk ids :
  observes tx_word (bring_up clk ids)
           (fun size l => l = if size =? 0 then [] else command_words).
Proof.
  unfold bring_up. cbv zeta. destruct (negb (fst ids =? PSRAM_ID)).
  - eapply observes_weaken; [observe_steps|].
    cbv beta. intros size l H. observed. reflexivity.
  - eapply observes_weaken.
    + unfold enable_quad, command_turn, configure_map_mode, set_bits,
        clear_bits.
      unroll_loops. observe_steps.
    + cbv beta. intros size l H. observed.
      rewrite psram_size_of_nonzero. reflexivity.
Qed.

(** X4 (lines 93-271): whenever [setup_psram] returns, the words it has
    stored to the transmit port are, in order, the quad-mode exit, the
    identify command and six no-ops, and, exactly when the identification
    succeeded (a non-zero capacity is returned), the four commands
    reset-enable, reset, quad-enable and linear-burst toggle. *)
Theorem setup_psram_sends pin clk s size s' :
  setup_psram pin clk s = (Some size, s') ->
  exists entries,
    log s' = log s ++ entries
    /\ project tx_word entries
       = probe_words ++ (if size =? 0 then [] else command_words).
Proof.
  revert s size s'.
  change (observes tx_word (setup_psram pin clk)
            (fun size l => l = probe_words
                               ++ (if size =? 0 then [] else command_words))).
  eapply observes_weaken.
  - unfold setup_psram. eapply observes_bind.
    + apply probe_sends.
    + intros ids. apply bring_up_sends.
  - cbv beta. intros size l H. observed. reflexivity.
Qed.

(** X5 (lines 120-174): whenever the identification phase completes it has
    loaded exactly eight words from the receive port: one after the
    quad-mode exit and seven during the identify sequence; the manufacturer
    id is the low byte of the sixth of those seven and the extended id the
    low byte of the seventh. *)
Theorem probe_identity_bytes pin clk s kgd eid s' :
  probe pin clk s = (Some (kgd, eid), s') ->
  exists entries r0 r1 r2 r3 r4 r5 r6 r7,
    log s' = log s ++ entries
    /\ project rx_word entries = [r0; r1; r2; r3; r4; r5; r6; r7]
    /\ kgd = u8 r6 /\ eid = u8 r7.
Proof.
  assert (H : observes rx_word (probe pin clk)
                (fun ids l => exists r0 r1 r2 r3 r4 r5 r6 r7,
                     l = [r0; r1; r2; r3; r4; r5; r6; r7]
                     /\ ids = (u8 r6, u8 r7))).
  { eapply observes_weaken.
    - unfold probe, exit_quad, read_id, read_id_turn, set_bits, clear_bits.
      unroll_loops. observe_steps.
    - cbv beta. intros ids l H. observed. simpl.
      repeat eexists. }
  intros E. destruct (H s (kgd, eid) s' E)
    as (es & Hl & r0 & r1 & r2 & r3 & r4 & r5 & r6 & r7 & Hp & Hi).
  inversion Hi; subst.
  exists es, r0, r1, r2, r3, r4, r5, r6, r7. auto.
Qed.

Lemma bring_up_stores clk ids :
  observes map_mode_access (bring_up clk ids)
           (fun size l => if size =? 0 then l = []
                          else exists ctrl, l = map_mode_accesses clk ctrl).
Proof.
  unfold bring_up. cbv zeta. destruct (negb (fst ids =? PSRAM_ID)).
  - eapply observes_weaken; [observe_steps|].
    cbv beta. intros size l H. observed. reflexivity.
  - eapply observes_weaken.
    + unfold enable_quad, command_turn, configure_map_mode, set_bits,
        clear_bits.
      unroll_loops. observe_steps.
    + cbv beta. intros size l H. observed.
      rewrite psram_size_of_nonzero. eexists. reflexivity.
Qed.

Lemma probe_stores pin clk :
  observes map_mode_access (probe pin clk) (fun _ l => l = []).
Proof.
  eapply observes_weaken.
  - unfold probe, exit_quad, read_id, read_id_turn, set_bits, clear_bits.
    unroll_loops. observe_steps.
  - cbv beta. intros ids l H. observed. reflexivity.
Qed.

(** X6 (lines 224-267): whenever [setup_psram] returns a non-zero capacity
    it has made exactly six map-mode configuration stores, in this order:
    the timing word built from the derived parameters, the read format, the
    quad-read command 0xEB, the write format, the quad-write command 0x38,
    and the XIP control word with the write-enable bits set.  That word is
    the one the hardware returned to the only load of the XIP control
    register, which comes between the fifth store and the sixth.  When
    [setup_psram] returns 0 it has made none of these accesses. *)
Theorem setup_psram_stores pin clk s size s' :
  setup_psram pin clk s = (Some size, s') ->
  exists entries,
    log s' = log s ++ entries
    /\ (if size =? 0 then project map_mode_access entries = []
        else exists ctrl,
            project map_mode_access entries = map_mode_accesses clk ctrl).
Proof.
  assert (H : observes map_mode_access (setup_psram pin clk)
                (fun size l => if size =? 0 then l = []
                               else exists ctrl, l = map_mode_accesses clk ctrl)).
  { eapply observes_weaken.
    - unfold setup_psram. eapply observes_bind.
      + apply probe_stores.
      + intros ids. apply bring_up_stores.
    - cbv beta. intros sz l H. observed. exact H0. }
  intros E. destruct (H s size s' E) as (es & Hl & Hr).
  exists es. split; [exact Hl|].
  destruct (size =? 0); exact Hr.
Qed.

(** Clearing bits with [&= ~(bits)] leaves none of them set in the 32-bit
    word stored. *)
Lemma cleared_bits v bits : Z.land (u32 (Z.land v (not32 bits))) bits = 0.
Proof.
  apply Z.bits_inj'. intros n Hn. rewrite Z.bits_0, Z.land_spec.
  unfold u32, not32, u32.
  destruct (Z.ltb_spec n 32) as [Hlt|Hge].
  - rewrite Z.mod_pow2_bits_low by lia.
    rewrite Z.land_spec, Z.mod_pow2_bits_low by lia.
    rewrite Z.lnot_spec by lia.
    destruct (Z.testbit bits n), (Z.testbit v n); reflexivity.
  - rewrite Z.mod_pow2_bits_high by lia. reflexivity.
Qed.

Lemma probe_leaves_direct_mode pin clk :
  observes csr_store (probe pin clk)
           (fun _ l => exists earlier w,
                l = earlier ++ [w]
                /\ Z.land w (Z.lor QMI_DIRECT_CSR_ASSERT_CS1N_BITS
                                   QMI_DIRECT_CSR_EN_BITS) = 0).
Proof.
  eapply observes_weaken.
  - unfold probe, exit_quad, read_id, read_id_turn, set_bits, clear_bits.
    unroll_loops. observe_steps.
  - cbv beta. intros ids l H. observed. simpl.
    eexists [_; _; _; _], _. split; [reflexivity|]. apply cleared_bits.
Qed.

Lemma bring_up_leaves_direct_mode clk ids :
  observes csr_store (bring_up clk ids)
           (fun _ l => l = []
                       \/ exists earlier w,
                            l = earlier ++ [w]
                            /\ Z.land w (Z.lor QMI_DIRECT_CSR_ASSERT_CS1N_BITS
                                               QMI_DIRECT_CSR_EN_BITS) = 0).
Proof.
  unfold bring_up. cbv zeta. destruct (negb (fst ids =? PSRAM_ID)).
  - eapply observes_weaken; [observe_steps|].
    cbv beta. intros size l H. observed. left. reflexivity.
  - eapply observes_weaken.
    + unfold enable_quad, command_turn, configure_map_mode, set_bits,
        clear_bits.
      unroll_loops. observe_steps.
    + cbv beta. intros size l H. observed. right. simpl.
      eexists [_; _; _; _; _; _; _; _; _], _.
      split; [reflexivity|]. apply cleared_bits.
Qed.

(** X7 (lines 120-222): whenever [setup_psram] returns, on either path, the
    last word it stored to the direct-mode control register has the enable
    and the chip-select bits clear: direct mode is never left on. *)
Theorem setup_psram_leaves_direct_mode pin clk s size s' :
  setup_psram pin clk s = (Some size, s') ->
  exists entries earlier w,
    log s' = log s ++ entries
    /\ project csr_store entries = earlier ++ [w]
    /\ Z.land w (Z.lor QMI_DIRECT_CSR_ASSERT_CS1N_BITS
                       QMI_DIRECT_CSR_EN_BITS) = 0.
Proof.
  assert (H : observes csr_store (setup_psram pin clk)
                (fun _ l => exists earlier w,
                     l = earlier ++ [w]
                     /\ Z.land w (Z.lor QMI_DIRECT_CSR_ASSERT_CS1N_BITS
                                        QMI_DIRECT_CSR_EN_BITS) = 0)).
  { eapply observes_weaken.
    - unfold setup_psram. eapply observes_bind.
      + apply probe_leaves_direct_mode.
      + intros ids. apply bring_up_leaves_direct_mode.
    - cbv beta. intros sz l H.
      destruct H as (ids & l1 & l2 & (e1 & w1 & E1 & Hw1) & H2 & El).
      subst l l1. destruct H2 as [E2|(e2 & w2 & E2 & Hw2)]; subst l2.
      + exists e1, w1. rewrite app_nil_r. auto.
      + exists ((e1 ++ [w1]) ++ e2), w2.
        split; [apply app_assoc | exact Hw2]. }
  intros E. destruct (H s size s' E) as (es & Hl & e & w & Hp & Hw).
  exists es, e, w. auto.
Qed.

(** *** A device that never answers *)

Lemma spin_always_busy r pending :
  always_busy pending ->
  forall s, fst (spin r busy pending s) = None
            /\ irq_off (snd (spin r busy pending s)) = irq_off s.
Proof.
  induction 1 as [|v rest Hv _ IH]; intros s; simpl.
  - auto.
  - rewrite Hv.
    apply (IH (mk_hw (irq_off s) rest
                     (log s ++ [(irq_off s, reg_read r (u32 v))]))).
Qed.

(** X8 (lines 118-126): there is no timeout: if every status word the
    device returns has the busy bit set, [setup_psram] never returns,
    however many words are observed, and the wait goes on with interrupts
    disabled. *)
Theorem setup_psram_hangs_when_busy pin clk s :
  always_busy (inputs s) ->
  fst (setup_psram pin clk s) = None
  /\ irq_off (snd (setup_psram pin clk s)) = true.
Proof.
  intros Hb.
  unfold setup_psram, probe, exit_quad, bind, emit, write, emit,
    save_and_disable_interrupts, wait_while. simpl.
  match goal with
  | |- context [spin direct_csr busy (inputs s) ?st] =>
      destruct (spin_always_busy direct_csr (inputs s) Hb st) as [Hn Hi];
      destruct (spin direct_csr busy (inputs s) st) as [[[]|] st']
  end; simpl in *; [discriminate | auto].
Qed.

(** X9 (lines 93-271): on a device that is ready at every status read and
    for which at least 47 answers are known, [setup_psram] returns; it has
    then made exactly 28 register reads when it returns 0 (identification
    failed) and exactly 47 when it returns a capacity. *)
Theorem setup_psram_read_count pin clk s :
  Forall ready (inputs s) -> (47 <= List.length (inputs s))%nat ->
  exists size s',
    setup_psram pin clk s = (Some size, s')
    /\ inputs s' = skipn (if size =? 0 then 28 else 47) (inputs s).
Proof.
  intros Hr Hn. unfold setup_psram, bind.
  destruct (probe_returns pin clk s Hr ltac:(lia)) as [Hsome Hin].
  destruct (probe pin clk s) as [[[kgd eid]|] s1]; cbn [fst snd] in *;
    [|congruence].
  destruct (Z.eqb_spec kgd PSRAM_ID) as [E|E].
  - subst kgd.
    destruct (bring_up_returns clk eid s1) as [Hsome' Hin'].
    + rewrite Hin. apply ready_skipn, Hr.
    + rewrite Hin, length_skipn. lia.
    + pose proof (bring_up_capacity clk eid s1) as Hcap.
      destruct (bring_up clk (PSRAM_ID, eid) s1) as [[size|] s2];
        cbn [fst snd] in *; [|congruence].
      rewrite (Hcap size eq_refl) in *.
      exists (psram_size_of eid), s2. split; [reflexivity|].
      rewrite psram_size_of_nonzero, Hin', Hin, skipn_skipn.
      reflexivity.
  - unfold bring_up. cbv zeta. cbn [fst snd].
    destruct (Z.eqb_spec kgd PSRAM_ID) as [E'|_]; [contradiction|].
    eexists _, _. split; [reflexivity|]. simpl. exact Hin.
Qed.

End WithSdk.

(** *** Concrete runs on the RP2350 layout *)

Lemma sample_bring_up_returns :
  setup_psram (sdk := rp2350) RP2350_XIP_CSI_PIN 150000000
              (boot (prompt_device 0x5D 0x40))
  = (Some 8388608, snd sample_bring_up).
Proof. vm_compute. reflexivity. Qed.

Lemma setup_psram_sends_witness :
  exists entries,
    log (snd sample_bring_up)
    = log (boot (prompt_device 0x5D 0x40)) ++ entries
    /\ project tx_word entries
       = probe_words (sdk := rp2350)
         ++ (if 8388608 =? 0 then [] else command_words).
Proof.
  exact (setup_psram_sends (sdk := rp2350) RP2350_XIP_CSI_PIN 150000000
           (boot (prompt_device 0x5D 0x40)) 8388608 (snd sample_bring_up)
           sample_bring_up_returns).
Defined.

Lemma probe_identity_bytes_witness :
  exists entries r0 r1 r2 r3 r4 r5 r6 r7,
    log (snd sample_probe)
    = log (boot (prompt_device 0x5D 0x40)) ++ entries
    /\ project rx_word entries = [r0; r1; r2; r3; r4; r5; r6; r7]
    /\ 0x5D = u8 r6 /\ 0x40 = u8 r7.
Proof.
  apply (probe_identity_bytes (sdk := rp2350) RP2350_XIP_CSI_PIN 150000000
           (boot (prompt_device 0x5D 0x40)) 0x5D 0x40 (snd sample_probe)).
  unfold sample_probe. vm_compute. reflexivity.
Defined.

Lemma setup_psram_stores_witness :
  exists entries,
    log (snd sample_bring_up)
    = log (boot (prompt_device 0x5D 0x40)) ++ entries
    /\ (if 8388608 =? 0 then project map_mode_access entries = []
        else exists ctrl,
            project map_mode_access entries
            = map_mode_accesses (sdk := rp2350) 150000000 ctrl).
Proof.
  exact (setup_psram_stores (sdk := rp2350) RP2350_XIP_CSI_PIN 150000000
           (boot (prompt_device 0x5D 0x40)) 8388608 (snd sample_bring_up)
           sample_bring_up_returns).
Defined.

Lemma setup_psram_leaves_direct_mode_witness :
  exists entries earlier w,
    log (snd sample_bring_up)
    = log (boot (prompt_device 0x5D 0x40)) ++ entries
    /\ project csr_store entries = earlier ++ [w]
    /\ Z.land w (Z.lor (QMI_DIRECT_CSR_ASSERT_CS1N_BITS (SdkConstants := rp2350))
                       (QMI_DIRECT_CSR_EN_BITS (SdkConstants := rp2350))) = 0.
Proof.
  exact (setup_psram_leaves_direct_mode (sdk := rp2350) RP2350_XIP_CSI_PIN
           150000000 (boot (prompt_device 0x5D 0x40)) 8388608
           (snd sample_bring_up) sample_bring_up_returns).
Defined.

Lemma setup_psram_hangs_when_busy_witness :
  fst (setup_psram (sdk := rp2350) RP2350_XIP_CSI_PIN 150000000
                   (boot [0x2; 0x802; 0x2]))
  = None
  /\ irq_off (snd (setup_psram (sdk := rp2350) RP2350_XIP_CSI_PIN 150000000
                               (boot [0x2; 0x802; 0x2])))
     = true.
Proof.
  apply (setup_psram_hangs_when_busy (sdk := rp2350)).
  repeat (apply Forall_cons; [reflexivity|]). apply Forall_nil.
Defined.

Lemma setup_psram_read_count_witness :
  exists size s',
    setup_psram (sdk := rp2350) RP2350_XIP_CSI_PIN 150000000
                (boot (prompt_device 0x85D 0x840))
    = (Some size, s')
    /\ inputs s' = skipn (if size =? 0 then 28 else 47)
                         (inputs (boot (prompt_device 0x85D 0x840))).
Proof.
  apply (setup_psram_read_count (sdk := rp2350) RP2350_XIP_CSI_PIN 150000000
           (boot (prompt_device 0x85D 0x840))).
  - unfold boot, prompt_device. cbn [inputs].
    repeat (apply Forall_app; split);
      try (apply Forall_cons; [split; reflexivity | apply Forall_nil]);
      apply Forall_forall; intros v Hv; apply repeat_spec in Hv; subst v;
      split; reflexivity.
  - vm_compute. lia.
Defined.

End PsramMore.

Module BenchMore.
Import Word WordFacts Bench BenchFacts.

(** *** Arithmetic of the loops *)

Lemma element_s32 buffer u : element buffer (s32 u) = element buffer u.
Proof.
  unfold element, s32, u32.
  pose proof (Z.div_mod (u + 2 ^ 31) (2 ^ 32) ltac:(lia)) as D.
  replace (buffer + 4 * ((u + 2 ^ 31) mod 2 ^ 32 - 2 ^ 31))
    with (buffer + 4 * u + (- (4 * ((u + 2 ^ 31) / 2 ^ 32))) * 2 ^ 32) by lia.
  apply Z.mod_add. lia.
Qed.

Lemma land_le_r a b : 0 <= a -> 0 <= b -> Z.land a b <= b.
Proof.
  intros Ha Hb.
  pose proof (Z.add_lor_land (Z.ldiff b a) (Z.land b a)) as E.
  rewrite Z.lor_ldiff_and in E.
  assert (Z0 : Z.land (Z.ldiff b a) (Z.land b a) = 0).
  { apply Z.bits_inj'. intros n Hn.
    rewrite Z.bits_0, !Z.land_spec, Z.ldiff_spec.
    destruct (Z.testbit b n), (Z.testbit a n); reflexivity. }
  rewrite Z0 in E.
  assert (0 <= Z.ldiff b a) by (apply Z.ldiff_nonneg; lia).
  rewrite (Z.land_comm a b). lia.
Qed.

Lemma lcg_range seed : 0 <= lcg seed < 2 ^ 32.
Proof. apply u32_range. Qed.

(** The masked subscript is below the size for every non-zero [uint32_t]
    size, a power of two or not. *)
Lemma mask_index_below seed n :
  1 <= n < 2 ^ 32 -> 0 <= mask_index (lcg seed) n < n.
Proof.
  intros Hn. unfold mask_index. rewrite u32_id by lia.
  pose proof (lcg_range seed) as Hs. split.
  - apply Z.land_nonneg. lia.
  - pose proof (land_le_r (lcg seed) (n - 1)). lia.
Qed.

Lemma iter_pass_invariant (Inv : run -> Prop) body turns :
  (forall i r, Inv r -> Inv (body i r)) ->
  forall passes r, Inv r -> Inv (Nat.iter passes (pass turns 0 body) r).
Proof.
  intros Hb. apply iter_invariant. intros r Hr.
  apply (pass_invariant Inv (fun _ => True)); auto.
Qed.

(** *** Counting *)

Lemma step_count buffer n read rnd i r :
  List.length (accesses (step buffer n read rnd i r))
  = S (List.length (accesses r)).
Proof.
  destruct rnd, read; simpl; rewrite length_app; simpl; lia.
Qed.

Lemma pass_count body :
  (forall i r, List.length (accesses (body i r)) = S (List.length (accesses r))) ->
  forall turns u r,
    List.length (accesses (pass turns u body r))
    = (List.length (accesses r) + turns)%nat.
Proof.
  intros Hb. induction turns as [|k IH]; intros u r; cbn [pass].
  - lia.
  - rewrite IH, Hb. lia.
Qed.

(** X10 (lines 339-407): in each of the four modes [memory_test] makes one
    buffer access per inner turn: it appends exactly
    [loop_count * buffer_size] accesses to the trace (none when either is
    not positive). *)
Theorem memory_test_access_count {globals : Globals} start finish buffer n scale read rnd st :
  List.length (trace (snd (memory_test start finish buffer n scale read rnd st)))
  = (List.length (trace st)
     + Z.to_nat (loop_count scale) * Z.to_nat n)%nat.
Proof.
  unfold memory_test. cbn [snd trace]. rewrite length_app. f_equal.
  unfold run_loops.
  induction (Z.to_nat (loop_count scale)) as [|p IH].
  - reflexivity.
  - rewrite Nat.iter_succ, pass_count, IH by (intros; apply step_count).
    lia.
Qed.

(** *** The counter of the write modes *)

Lemma write_step_value buffer n rnd i r :
  value (step buffer n false rnd i r) = u32 (value r + 1).
Proof. destruct rnd; reflexivity. Qed.

Lemma write_pass_value buffer n rnd :
  forall turns u r,
    0 <= value r < 2 ^ 32 ->
    value (pass turns u (step buffer n false rnd) r)
    = u32 (value r + Z.of_nat turns).
Proof.
  induction turns as [|k IH]; intros u r Hr; cbn [pass].
  - rewrite Z.add_0_r, u32_id by exact Hr. reflexivity.
  - rewrite IH by (rewrite write_step_value; apply u32_range).
    rewrite write_step_value, u32_add_l. f_equal. lia.
Qed.

(** X11 (lines 362-373, 389-399): after a write-mode call, sequential or
    random, the global [s_value] is the number of stores made,
    [loop_count * buffer_size], modulo 2^32. *)
Theorem memory_test_write_counter {globals : Globals} start finish buffer n scale rnd st :
  s_value (snd (memory_test start finish buffer n scale false rnd st))
  = Z.of_nat (Z.to_nat (loop_count scale) * Z.to_nat n) mod 2 ^ 32.
Proof.
  unfold memory_test. cbn [snd s_value]. unfold run_loops.
  assert (H : forall passes,
             0 <= value (Nat.iter passes
                           (pass (Z.to_nat n) 0 (step buffer n false rnd))
                           (mk_run (mem st) [] 0xDEADBEEF 0)) < 2 ^ 32
             /\ value (Nat.iter passes
                         (pass (Z.to_nat n) 0 (step buffer n false rnd))
                         (mk_run (mem st) [] 0xDEADBEEF 0))
                = u32 (Z.of_nat (passes * Z.to_nat n))).
  { induction passes as [|p [IHr IHv]].
    - simpl. split; [lia | reflexivity].
    - rewrite Nat.iter_succ, write_pass_value by exact IHr.
      split; [apply u32_range|].
      rewrite IHv, u32_add_l. f_equal. lia. }
  apply H.
Qed.

(** *** The accumulator of the sequential read *)

Lemma seq_read_pass buffer :
  forall turns u r,
    ram (pass turns u (seq_read_step buffer) r) = ram r
    /\ u32 (value (pass turns u (seq_read_step buffer) r))
       = u32 (value r + words_sum (ram r) buffer u turns).
Proof.
  induction turns as [|k IH]; intros u r; cbn [pass words_sum].
  - rewrite Z.add_0_r. auto.
  - destruct (IH (u + 1) (seq_read_step buffer (s32 u) r)) as [Hm Hv].
    rewrite Hm, Hv. split; [reflexivity|].
    cbn [seq_read_step ram value]. rewrite element_s32, u32_add_l.
    f_equal. lia.
Qed.

Lemma step_value_range buffer n read rnd i r :
  0 <= value (step buffer n read rnd i r) < 2 ^ 32.
Proof. destruct rnd, read; apply u32_range. Qed.

Lemma run_loops_value_range buffer n scale read rnd m :
  0 <= value (run_loops buffer n scale read rnd m) < 2 ^ 32.
Proof.
  unfold run_loops.
  apply (iter_pass_invariant (fun r => 0 <= value r < 2 ^ 32)).
  - intros i r _. apply step_value_range.
  - simpl. lia.
Qed.

Lemma seq_read_total {globals : Globals} start finish buffer n scale st :
  s_value (snd (memory_test start finish buffer n scale true false st))
  = (Z.of_nat (Z.to_nat (loop_count scale))
     * words_sum (mem st) buffer 0 (Z.to_nat n)) mod 2 ^ 32.
Proof.
  unfold memory_test. cbn [snd s_value].
  rewrite <- (u32_id (value _)) by apply run_loops_value_range.
  unfold run_loops.
  change (step buffer n true false) with (seq_read_step buffer).
  assert (H : forall passes,
             ram (Nat.iter passes (pass (Z.to_nat n) 0 (seq_read_step buffer))
                           (mk_run (mem st) [] 0xDEADBEEF 0)) = mem st
             /\ u32 (value (Nat.iter passes
                              (pass (Z.to_nat n) 0 (seq_read_step buffer))
                              (mk_run (mem st) [] 0xDEADBEEF 0)))
                = u32 (Z.of_nat passes
                       * words_sum (mem st) buffer 0 (Z.to_nat n))).
  { induction passes as [|p [Hm Hv]].
    - simpl. auto.
    - rewrite Nat.iter_succ.
      destruct (seq_read_pass buffer (Z.to_nat n) 0
                  (Nat.iter p (pass (Z.to_nat n) 0 (seq_read_step buffer))
                            (mk_run (mem st) [] 0xDEADBEEF 0))) as [Hm' Hv'].
      rewrite Hm', Hv', Hm. split; [reflexivity|].
      rewrite <- u32_add_l, Hv, u32_add_l. f_equal. lia. }
  apply H.
Qed.

(** X12 (lines 378-387): after a sequential-read call the global [s_value]
    is the sum of the words of the buffer, taken once per outer turn,
    modulo 2^32. *)
Theorem memory_test_read_sum {globals : Globals} start finish buffer n scale st :
  s_value (snd (memory_test start finish buffer n scale true false st))
  = (Z.of_nat (Z.to_nat (loop_count scale))
     * words_sum (mem st) buffer 0 (Z.to_nat n)) mod 2 ^ 32.
Proof. apply seq_read_total. Qed.

(** *** What a call may change *)

Lemma step_frame buffer n read rnd i r a :
  1 <= n < 2 ^ 32 -> (rnd = false -> a <> element buffer i) ->
  outside buffer n a ->
  cells (ram (step buffer n read rnd i r)) a = cells (ram r) a
  /\ writable (ram (step buffer n read rnd i r)) = writable (ram r).
Proof.
  intros Hn Hi Ha. destruct rnd, read; simpl; auto;
    (split; [apply cells_store_other | apply writable_store]).
  - apply Ha. apply mask_index_below, Hn.
  - apply Hi. reflexivity.
Qed.

Lemma run_loops_writable buffer n scale read rnd m :
  writable (ram (run_loops buffer n scale read rnd m)) = writable m.
Proof.
  unfold run_loops.
  apply (iter_pass_invariant (fun r => writable (ram r) = writable m));
    [|reflexivity].
  intros i r Hr. rewrite <- Hr.
  destruct rnd, read; simpl; try reflexivity; apply writable_store.
Qed.

Lemma run_loops_outside buffer n scale read rnd m a :
  0 <= n < 2 ^ 32 ->
  outside buffer n a ->
  cells (ram (run_loops buffer n scale read rnd m)) a = cells m a.
Proof.
  intros Hn Ha. unfold run_loops.
  apply (iter_invariant (fun r => cells (ram r) a = cells m a)); [|auto].
  intros r Hr.
  destruct (Z.eq_dec n 0) as [E|E]; [subst n; exact Hr|].
  apply (pass_invariant (fun r => cells (ram r) a = cells m a)
                        (fun i => a <> element buffer i)); [| |exact Hr].
  - intros i r' Hi Hc.
    destruct (step_frame buffer n read rnd i r' a) as [Hc' _];
      [lia | auto | exact Ha |].
    rewrite Hc'. exact Hc.
  - intros j Hj. rewrite Z2Nat.id in Hj by lia.
    rewrite element_s32. apply Ha. lia.
Qed.

Lemma memory_test_outside {globals : Globals}
  start finish buffer n scale read rnd st a :
  0 <= n < 2 ^ 32 ->
  outside buffer n a ->
  a <> s_value_address ->
  cells (mem (snd (memory_test start finish buffer n scale read rnd st))) a
  = cells (mem st) a.
Proof.
  intros Hn Ha Hs. unfold memory_test. cbn [snd mem].
  rewrite cells_store_other by exact Hs.
  apply run_loops_outside; assumption.
Qed.

(** X13 (lines 339-407): whatever the mode, a call of [memory_test] on a
    buffer of [n] words changes no word other than those [n] words and the
    word of the variable [s_value]; that word, when it is writable, holds
    after the call the value assigned at line 404; and the call does not
    change which addresses are writable. *)
Theorem memory_test_frame {globals : Globals}
  start finish buffer n scale read rnd st a :
  0 <= n < 2 ^ 32 ->
  outside buffer n a ->
  a <> s_value_address ->
  cells (mem (snd (memory_test start finish buffer n scale read rnd st))) a
  = cells (mem st) a
  /\ (writable (mem st) s_value_address = true ->
      load (mem (snd (memory_test start finish buffer n scale read rnd st)))
           s_value_address
      = s_value (snd (memory_test start finish buffer n scale read rnd st)))
  /\ writable (mem (snd (memory_test start finish buffer n scale read rnd st)))
     = writable (mem st).
Proof.
  intros Hn Ha Hs. split; [apply memory_test_outside; assumption|].
  unfold memory_test. cbn [snd mem s_value]. split.
  - intros Hw. rewrite load_store_same.
    + apply u32_id, run_loops_value_range.
    + rewrite run_loops_writable. exact Hw.
  - rewrite writable_store. apply run_loops_writable.
Qed.

Lemma memory_test_frame_witness :
  cells (mem (snd (memory_test (globals := sample_layout) 0 5 0x20000000 4 1
                               false true (mk_state blank_ram 0 []))))
        0x20000010
  = 0.
Proof.
  destruct (memory_test_frame (globals := sample_layout) 0 5 0x20000000 4 1
              false true (mk_state blank_ram 0 []) 0x20000010) as [H _].
  - lia.
  - intros i Hi. unfold element, u32.
    rewrite Z.mod_small by lia. lia.
  - cbn [s_value_address sample_layout]. lia.
  - rewrite H. reflexivity.
Defined.

(** X14 (lines 342-404): when [loop_count] or [buffer_size] is not
    positive, [memory_test] makes no buffer access: the trace is unchanged
    and the only store is that of 0 to the variable [s_value].  (A
    [loop_scale] of 21,474,837 is such a case: 100 times it wraps to a
    negative [int].) *)
Theorem memory_test_no_turns {globals : Globals}
  start finish buffer n scale read rnd st :
  loop_count scale <= 0 \/ n <= 0 ->
  snd (memory_test start finish buffer n scale read rnd st)
  = mk_state (store (mem st) s_value_address 0) 0 (trace st).
Proof.
  intros H.
  unfold memory_test. cbn [snd]. unfold run_loops.
  assert (E : Nat.iter (Z.to_nat (loop_count scale))
                       (pass (Z.to_nat n) 0 (step buffer n read rnd))
                       (mk_run (mem st) [] 0xDEADBEEF 0)
              = mk_run (mem st) [] 0xDEADBEEF 0).
  { destruct H as [H|H].
    - replace (Z.to_nat (loop_count scale)) with O by lia. reflexivity.
    - replace (Z.to_nat n) with O by lia.
      induction (Z.to_nat (loop_count scale)) as [|p IH]; [reflexivity|].
      rewrite Nat.iter_succ, IH. reflexivity. }
  rewrite E. cbn [ram value accesses]. rewrite app_nil_r. reflexivity.
Qed.

Lemma memory_test_no_turns_witness :
  snd (memory_test (globals := sample_layout) 0 1 0x20000000 16384 21474837
                   false false (mk_state blank_ram 7 [Load 3]))
  = mk_state (store blank_ram (s_value_address (Globals := sample_layout)) 0)
             0 [Load 3].
Proof.
  apply (memory_test_no_turns (globals := sample_layout) 0 1 0x20000000 16384
           21474837 false false (mk_state blank_ram 7 [Load 3])).
  left. vm_compute. discriminate.
Defined.

(** *** The correctness pass on RAM and on read-only memory *)

Lemma load_store_sentinel m a b v :
  load m b = u32 v -> load (store m a v) b = u32 v.
Proof.
  intros H. unfold store. destruct (writable m a) eqn:W; [|exact H].
  unfold load. simpl. destruct (Z.eqb_spec b a).
  - unfold u32. apply Z.mod_mod. lia.
  - exact H.
Qed.

Lemma check_words_writable forwarded buffer :
  forall turns u m,
    (forall j, u <= j < u + Z.of_nat turns ->
               writable m (element buffer j) = true) ->
    fst (check_words forwarded turns u buffer m) = true
    /\ writable (snd (check_words forwarded turns u buffer m)) = writable m
    /\ (forall b, load m b = 0xDEADBEEF
                  \/ (exists j, u <= j < u + Z.of_nat turns
                                /\ b = element buffer j) ->
                  load (snd (check_words forwarded turns u buffer m)) b
                  = 0xDEADBEEF)
    /\ (forall a, (forall j, u <= j < u + Z.of_nat turns ->
                             a <> element buffer j) ->
                  cells (snd (check_words forwarded turns u buffer m)) a
                  = cells m a).
Proof.
  induction turns as [|k IH]; intros u m Hw.
  - cbn [check_words fst snd]. repeat split; try reflexivity.
    intros b [H|(j & Hj & _)]; [exact H | simpl in Hj; lia].
  - cbn [check_words]. cbv zeta. rewrite Nat2Z.inj_succ in *.
    rewrite element_s32.
    set (m1 := store m (element buffer u) 0xDEADBEEF).
    assert (Hl : load m1 (element buffer u) = 0xDEADBEEF).
    { unfold m1. rewrite load_store_same by (apply Hw; lia). reflexivity. }
    replace (if forwarded then u32 0xDEADBEEF else load m1 (element buffer u))
      with 0xDEADBEEF by (destruct forwarded; [reflexivity | symmetry; exact Hl]).
    rewrite Z.eqb_refl. cbn [negb].
    destruct (IH (u + 1) m1) as (Hr & Hwr & Hs & Hf).
    { intros j Hj. unfold m1. rewrite writable_store. apply Hw. lia. }
    split; [exact Hr|]. split; [rewrite Hwr; apply writable_store|]. split.
    + intros b Hb. apply Hs.
      destruct Hb as [Hb|(j & Hj & Eb)].
      * left. unfold m1.
        change 0xDEADBEEF with (u32 0xDEADBEEF).
        apply load_store_sentinel. exact Hb.
      * destruct (Z.eq_dec j u) as [E|E].
        -- left. subst. exact Hl.
        -- right. exists j. split; [lia | exact Eb].
    + intros a Ha. rewrite Hf by (intros j Hj; apply Ha; lia).
      unfold m1. apply cells_store_other. apply Ha. lia.
Qed.

(** X15 (lines 419-448): on a region whose words are all writable the
    correctness pass reports "Passed"; it leaves the sentinel 0xDEADBEEF in
    every word of the region (the previous contents are lost) and changes
    nothing outside it, whether or not the build loads each word again
    for the comparison. *)
Theorem test_one_passes_on_ram forwarded c m :
  (forall j, 0 <= j < buffer_size c ->
             writable m (element (buffer c) j) = true) ->
  snd (test_one forwarded c m) = Passed (test_name c)
  /\ (forall j, 0 <= j < buffer_size c ->
                load (fst (test_one forwarded c m)) (element (buffer c) j)
                = 0xDEADBEEF)
  /\ (forall a, outside (buffer c) (buffer_size c) a ->
                cells (fst (test_one forwarded c m)) a = cells m a).
Proof.
  intros Hw. unfold test_one. rewrite checked_region_always.
  destruct (check_words_writable forwarded (buffer c)
              (Z.to_nat (buffer_size c)) 0 m)
    as (Hr & _ & Hs & Hf).
  { intros j Hj. apply Hw. lia. }
  destruct (check_words forwarded (Z.to_nat (buffer_size c)) 0 (buffer c) m)
    as [result m'].
  cbn [fst snd] in *. subst result. cbn [fst snd].
  split; [reflexivity|]. split.
  - intros j Hj. apply Hs. right. exists j. split; [lia | reflexivity].
  - intros a Ha. apply Hf. intros j Hj. apply Ha. lia.
Qed.

Lemma test_one_passes_on_ram_witness :
  snd (test_one false (mk_config 0x20000000 4 1 true false "SEQ SRAM READ" 0)
                board_memory)
  = Passed "SEQ SRAM READ".
Proof.
  destruct (test_one_passes_on_ram false
              (mk_config 0x20000000 4 1 true false "SEQ SRAM READ" 0)
              board_memory) as [H _].
  - intros j Hj. cbn [buffer buffer_size] in *. unfold element, u32.
    rewrite Z.mod_small by lia. unfold board_memory. cbn [writable].
    destruct (Z.leb_spec 0x10000000 (536870912 + 4 * j)); [|lia].
    destruct (Z.ltb_spec (536870912 + 4 * j) PSRAM_LOCATION);
      [unfold PSRAM_LOCATION in *; lia | reflexivity].
  - exact H.
Defined.

Lemma check_words_read_only buffer :
  forall before u m,
    (forall j, u <= j < u + Z.of_nat before ->
               writable m (element buffer j) = true) ->
    writable m (element buffer (u + Z.of_nat before)) = false ->
    load m (element buffer (u + Z.of_nat before)) <> 0xDEADBEEF ->
    forall more,
      fst (check_words false (before + S more) u buffer m) = false
      /\ (forall a, (forall j, u <= j < u + Z.of_nat before ->
                               a <> element buffer j) ->
                    cells (snd (check_words false (before + S more) u buffer m)) a
                    = cells m a).
Proof.
  induction before as [|k IH]; intros u m Hw Hro Hne more.
  - cbn [Nat.add check_words]. cbv zeta iota.
    rewrite Z.add_0_r in *. rewrite element_s32.
    assert (E : store m (element buffer u) 0xDEADBEEF = m)
      by (unfold store; rewrite Hro; reflexivity).
    rewrite E. destruct (Z.eqb_spec (load m (element buffer u)) 0xDEADBEEF);
      [contradiction|].
    cbn [negb fst snd]. auto.
  - cbn [Nat.add check_words]. cbv zeta iota. rewrite Nat2Z.inj_succ in *.
    rewrite element_s32.
    set (m1 := store m (element buffer u) 0xDEADBEEF).
    assert (Hl : load m1 (element buffer u) = 0xDEADBEEF).
    { unfold m1. rewrite load_store_same by (apply Hw; lia). reflexivity. }
    rewrite Hl, Z.eqb_refl. cbn [negb].
    assert (Hdiff : element buffer (u + Z.succ (Z.of_nat k)) <> element buffer u).
    { intros E. rewrite E in Hro. rewrite Hw in Hro by lia. discriminate. }
    destruct (IH (u + 1) m1) with (more := more) as [Hr Hf].
    + intros j Hj. unfold m1. rewrite writable_store. apply Hw. lia.
    + unfold m1. rewrite writable_store.
      replace (u + 1 + Z.of_nat k) with (u + Z.succ (Z.of_nat k)) by lia.
      exact Hro.
    + replace (u + 1 + Z.of_nat k) with (u + Z.succ (Z.of_nat k)) by lia.
      unfold load, m1. rewrite cells_store_other by exact Hdiff. exact Hne.
    + split; [exact Hr|].
      intros a Ha. rewrite Hf by (intros j Hj; apply Ha; lia).
      unfold m1. apply cells_store_other. apply Ha. lia.
Qed.

(** A build that compares the value it has just stored never sees a
    difference, and stores to every word of the region. *)
Lemma check_words_forwarded buffer :
  forall turns u m,
    fst (check_words true turns u buffer m) = true
    /\ (forall j, u <= j < u + Z.of_nat turns ->
                  writable m (element buffer j) = true ->
                  load (snd (check_words true turns u buffer m))
                       (element buffer j)
                  = 0xDEADBEEF).
Proof.
  induction turns as [|k IH]; intros u m.
  - cbn [check_words fst snd]. split; [reflexivity|].
    intros j Hj. simpl in Hj. lia.
  - cbn [check_words]. cbv zeta iota.
    change (negb (u32 0xDEADBEEF =? 0xDEADBEEF)) with false. cbv iota.
    rewrite Nat2Z.inj_succ, element_s32.
    set (m1 := store m (element buffer u) 0xDEADBEEF).
    destruct (IH (u + 1) m1) as [Hr Hs].
    split; [exact Hr|].
    intros j Hj Hw.
    destruct (Z.eq_dec (element buffer j) (element buffer u)) as [E|E].
    + assert (Hl : load m1 (element buffer j) = u32 0xDEADBEEF).
      { rewrite E. unfold m1. apply load_store_same. rewrite <- E. exact Hw. }
      destruct (Z.eq_dec j u) as [Ej|Ej].
      * subst j.
        assert (Hkeep : forall turns' u' m',
                   load m' (element buffer u) = u32 0xDEADBEEF ->
                   load (snd (check_words true turns' u' buffer m'))
                        (element buffer u) = u32 0xDEADBEEF).
        { clear. induction turns' as [|k' IH']; intros u' m' H.
          - exact H.
          - cbn [check_words]. cbv zeta iota.
            change (negb (u32 0xDEADBEEF =? 0xDEADBEEF)) with false. cbv iota.
            apply IH'. apply load_store_sentinel. exact H. }
        apply Hkeep. exact Hl.
      * apply Hs; [lia|]. unfold m1. rewrite writable_store. exact Hw.
    + apply Hs.
      * assert (j <> u) by (intros ->; apply E; reflexivity). lia.
      * unfold m1. rewrite writable_store. exact Hw.
Qed.

(** X16 (lines 419-448): if some word of the region is not writable and
    does not already hold the sentinel, the words before it being writable,
    the line printed depends on the build, the pointer not being
    [volatile].  A build that loads the word again for the comparison
    reports "Failed" and stops there: no word other than those before the
    failing one is changed.  A build that compares the value it has just
    stored reports "Passed", and has stored the sentinel to every writable
    word of the region. *)
Theorem test_one_on_read_only c m k :
  0 <= k < buffer_size c ->
  (forall j, 0 <= j < k -> writable m (element (buffer c) j) = true) ->
  writable m (element (buffer c) k) = false ->
  load m (element (buffer c) k) <> 0xDEADBEEF ->
  (snd (test_one false c m) = Failed (test_name c)
   /\ (forall a, outside (buffer c) k a ->
                 cells (fst (test_one false c m)) a = cells m a))
  /\ (snd (test_one true c m) = Passed (test_name c)
      /\ (forall j, 0 <= j < buffer_size c ->
                    writable m (element (buffer c) j) = true ->
                    load (fst (test_one true c m)) (element (buffer c) j)
                    = 0xDEADBEEF)).
Proof.
  intros Hk Hw Hro Hne. unfold test_one. rewrite checked_region_always.
  split.
  - replace (Z.to_nat (buffer_size c))
      with (Z.to_nat k + S (Z.to_nat (buffer_size c - k - 1)))%nat by lia.
    destruct (check_words_read_only (buffer c) (Z.to_nat k) 0 m) with
      (more := Z.to_nat (buffer_size c - k - 1)) as [Hr Hf].
    + intros j Hj. apply Hw. lia.
    + rewrite Z2Nat.id by lia. exact Hro.
    + rewrite Z2Nat.id by lia. exact Hne.
    + destruct (check_words false _ 0 (buffer c) m) as [result m'].
      cbn [fst snd] in *. subst result. cbn [fst snd].
      split; [reflexivity|].
      intros a Ha. apply Hf. intros j Hj. apply Ha. lia.
  - destruct (check_words_forwarded (buffer c) (Z.to_nat (buffer_size c)) 0 m)
      as [Hr Hs].
    destruct (check_words true (Z.to_nat (buffer_size c)) 0 (buffer c) m)
      as [result m'].
    cbn [fst snd] in *. subst result. cbn [fst snd].
    split; [reflexivity|].
    intros j Hj Hwj. apply Hs; [lia | exact Hwj].
Qed.

Lemma test_one_on_read_only_witness :
  snd (test_one false
                (mk_config 0x10008000 TEST_SIZE LOOP_SCALE true false
                           "SEQ ROM READ" 0) board_memory)
  = Failed "SEQ ROM READ"
  /\ snd (test_one true
                   (mk_config 0x10008000 TEST_SIZE LOOP_SCALE true false
                              "SEQ ROM READ" 0) board_memory)
     = Passed "SEQ ROM READ".
Proof.
  destruct (test_one_on_read_only
              (mk_config 0x10008000 TEST_SIZE LOOP_SCALE true false
                         "SEQ ROM READ" 0) board_memory 0)
    as [[H _] [H' _]].
  - vm_compute. split; [discriminate | reflexivity].
  - intros j Hj. lia.
  - reflexivity.
  - vm_compute. discriminate.
  - split; [exact H | exact H'].
Defined.

(** *** The pass over a table *)

(** X17 (lines 419-454): the correctness pass never stops early: it prints
    exactly one line per descriptor, and running it over a table made of
    two parts is running it over the first part and then, on the memory
    that leaves, over the second. *)
Theorem test_mem_sequence forwarded t1 t2 m :
  List.length (snd (test_mem forwarded (t1 ++ t2) m)) = List.length (t1 ++ t2)
  /\ test_mem forwarded (t1 ++ t2) m
     = (fst (test_mem forwarded t2 (fst (test_mem forwarded t1 m))),
        snd (test_mem forwarded t1 m)
        ++ snd (test_mem forwarded t2 (fst (test_mem forwarded t1 m)))).
Proof.
  split.
  - generalize (t1 ++ t2). intros t. revert m.
    induction t as [|c rest IH]; intros m; cbn [test_mem].
    + reflexivity.
    + destruct (test_one forwarded c m) as [m1 line]. specialize (IH m1).
      destruct (test_mem forwarded rest m1) as [m2 lines]. simpl in *. lia.
  - revert m. induction t1 as [|c rest IH]; intros m.
    + cbn [app test_mem fst snd]. destruct (test_mem forwarded t2 m).
      reflexivity.
    + cbn [app test_mem]. destruct (test_one forwarded c m) as [m1 line].
      rewrite IH. destruct (test_mem forwarded rest m1) as [m2 lines].
      cbn [fst snd]. reflexivity.
Qed.

(** *** A read benchmark after the correctness pass *)

Lemma words_sum_constant m buffer v :
  forall count first,
    (forall j, first <= j < first + Z.of_nat count ->
               load m (element buffer j) = v) ->
    words_sum m buffer first count = Z.of_nat count * v.
Proof.
  induction count as [|k IH]; intros first H; cbn [words_sum].
  - reflexivity.
  - rewrite Nat2Z.inj_succ in *. rewrite H by lia.
    rewrite IH by (intros j Hj; apply H; lia). lia.
Qed.

(** X18 (lines 419-448 with 378-387): a sequential-read benchmark that
    follows the correctness pass on the same writable region reads the
    sentinel in every word: it leaves in [s_value] the product
    [loop_count * buffer_size * 0xDEADBEEF] modulo 2^32. *)
Theorem read_after_check {globals : Globals} forwarded
  c m start finish scale old_value old_trace :
  0 <= buffer_size c -> 0 <= loop_count scale ->
  (forall j, 0 <= j < buffer_size c ->
             writable m (element (buffer c) j) = true) ->
  s_value (snd (memory_test start finish (buffer c) (buffer_size c) scale
                            true false
                            (mk_state (fst (test_one forwarded c m))
                                      old_value old_trace)))
  = (loop_count scale * (buffer_size c * 0xDEADBEEF)) mod 2 ^ 32.
Proof.
  intros Hn Hl Hw. rewrite seq_read_total. cbn [mem].
  rewrite (words_sum_constant _ _ 0xDEADBEEF).
  - rewrite !Z2Nat.id by lia. reflexivity.
  - intros j Hj. rewrite Z2Nat.id in Hj by lia.
    unfold test_one. rewrite checked_region_always.
    destruct (check_words_writable forwarded (buffer c)
                (Z.to_nat (buffer_size c)) 0 m)
      as (_ & _ & Hs & _).
    { intros i Hi. apply Hw. lia. }
    destruct (check_words forwarded (Z.to_nat (buffer_size c)) 0 (buffer c) m)
      as [[|] m']; cbn [fst snd] in *;
      (apply Hs; right; exists j; split; [lia | reflexivity]).
Qed.

Lemma read_after_check_witness :
  s_value (snd (memory_test (globals := sample_layout)
                            0 9 0x20000000 4 1 true false
                            (mk_state
                               (fst (test_one false
                                       (mk_config 0x20000000 4 1 true false
                                                  "SEQ SRAM READ" 0)
                                       blank_ram)) 0 [])))
  = (100 * (4 * 0xDEADBEEF)) mod 2 ^ 32.
Proof.
  apply (read_after_check (globals := sample_layout) false
           (mk_config 0x20000000 4 1 true false "SEQ SRAM READ" 0)
           blank_ram 0 9 1 0 []).
  - cbn [buffer_size]. lia.
  - vm_compute. discriminate.
  - intros j Hj. reflexivity.
Defined.

(** *** [run_tests] over a table *)

Lemma run_loops_in_bounds buffer n scale read rnd m :
  power_of_two n ->
  Forall (in_bounds n) (accesses (run_loops buffer n scale read rnd m)).
Proof.
  intros Hn. pose proof (power_of_two_range n Hn) as Hr.
  unfold run_loops. apply iter_invariant; [|apply Forall_nil].
  intros r Hacc.
  apply (pass_invariant (fun r => Forall (in_bounds n) (accesses r))
                        (fun i => 0 <= i < n)); [| |exact Hacc].
  - intros i r' Hi Hr'. apply step_in_bounds; assumption.
  - intros j Hj. rewrite Z2Nat.id in Hj by lia. rewrite s32_id; lia.
Qed.

Lemma run_tests_uniform {globals : Globals} time n table :
  power_of_two n ->
  Forall (fun c => buffer_size c = n) table ->
  forall calls i st,
    exists new,
      trace (snd (fst (run_tests time calls i table st))) = trace st ++ new
      /\ Forall (in_bounds n) new.
Proof.
  intros Hn. induction 1 as [|c rest Hc _ IH]; intros calls i st.
  - exists []. cbn. rewrite app_nil_r. auto.
  - cbn [run_tests].
    assert (Ht1 : trace (snd (memory_test (time calls) (time (S calls))
                                (buffer c) (buffer_size c) (loop_scale c)
                                (read c) (random c) st))
                  = trace st
                    ++ accesses (run_loops (buffer c) (buffer_size c)
                                   (loop_scale c) (read c) (random c) (mem st)))
      by reflexivity.
    destruct (memory_test (time calls) (time (S calls)) (buffer c)
                (buffer_size c) (loop_scale c) (read c) (random c) st)
      as [delta st1].
    cbn [snd] in Ht1.
    set (st1' := mk_state (store_result i delta (mem st1)) (s_value st1)
                          (trace st1)).
    destruct (IH (S (S calls)) (S i) st1') as (new & Ht & Hb).
    destruct (run_tests time (S (S calls)) (S i) rest st1')
      as [[rest' st2] lines].
    cbn [fst snd] in *. rewrite Ht. unfold st1'. cbn [trace]. rewrite Ht1.
    exists (accesses (run_loops (buffer c) (buffer_size c) (loop_scale c)
                                (read c) (random c) (mem st)) ++ new).
    rewrite app_assoc. split; [reflexivity|].
    apply Forall_app. split; [|exact Hb].
    rewrite Hc. apply run_loops_in_bounds. exact Hn.
Qed.

(** X19 (lines 294-335, 409-417): every descriptor of the program's table
    has the power-of-two size [TEST_SIZE] = 2^14, so in a whole run of
    [run_tests] every buffer access, of all fourteen tests, has its
    subscript within [0, TEST_SIZE). *)
Theorem run_tests_in_bounds {globals : Globals}
  time calls i s_test_memory s_testROM st :
  power_of_two TEST_SIZE
  /\ Forall (fun c => buffer_size c = TEST_SIZE)
            (s_memory_test_config s_test_memory s_testROM)
  /\ exists new,
      trace (snd (fst (run_tests time calls i
                         (s_memory_test_config s_test_memory s_testROM) st)))
      = trace st ++ new
      /\ Forall (in_bounds TEST_SIZE) new.
Proof.
  assert (Hp : power_of_two TEST_SIZE)
    by (exists 14; split; [lia | reflexivity]).
  assert (Hu : Forall (fun c => buffer_size c = TEST_SIZE)
                      (s_memory_test_config s_test_memory s_testROM))
    by (unfold s_memory_test_config; repeat constructor).
  split; [exact Hp|]. split; [exact Hu|].
  apply run_tests_uniform; assumption.
Qed.




(** *** The random modes visit every word once per pass *)

Lemma affine_iter t x :
  Nat.iter t affine x
  = 1103515245 ^ Z.of_nat t * x + 12345 * multiplier_sum t.
Proof.
  induction t as [|t IH].
  - cbn [Nat.iter nat_rect multiplier_sum Z.of_nat]. rewrite Z.pow_0_r. lia.
  - rewrite Nat.iter_succ, IH, Nat2Z.inj_succ, Z.pow_succ_r by lia.
    unfold affine. cbn [multiplier_sum]. lia.
Qed.

Lemma multiplier_sum_closed t :
  1103515244 * multiplier_sum t = 1103515245 ^ Z.of_nat t - 1.
Proof.
  induction t as [|t IH].
  - reflexivity.
  - rewrite Nat2Z.inj_succ, Z.pow_succ_r by lia. cbn [multiplier_sum]. lia.
Qed.

Lemma multiplier_power_mod4 t : exists q, 1103515245 ^ Z.of_nat t = 4 * q + 1.
Proof.
  induction t as [|t [q IH]].
  - exists 0. reflexivity.
  - rewrite Nat2Z.inj_succ, Z.pow_succ_r, IH by lia.
    exists (1103515245 * q + 275878811). lia.
Qed.

Lemma multiplier_sum_double t :
  exists q, multiplier_sum (2 * t) = multiplier_sum t * (2 * (2 * q + 1)).
Proof.
  destruct (multiplier_power_mod4 t) as [q Hq]. exists q.
  pose proof (multiplier_sum_closed t) as Ht.
  pose proof (multiplier_sum_closed (2 * t)) as H2.
  replace (Z.of_nat (2 * t)) with (Z.of_nat t + Z.of_nat t) in H2 by lia.
  rewrite Z.pow_add_r in H2 by lia.
  set (p := 1103515245 ^ Z.of_nat t) in *.
  assert (1103515244 * multiplier_sum (2 * t)
          = 1103515244 * (multiplier_sum t * (2 * (2 * q + 1)))) by nia.
  lia.
Qed.

Lemma multiplier_sum_parity t :
  exists q, multiplier_sum t = 2 * q + Z.of_nat t.
Proof.
  induction t as [|t [q IH]].
  - exists 0. reflexivity.
  - cbn [multiplier_sum]. rewrite IH, Nat2Z.inj_succ.
    exists (1103515245 * q + 551757622 * Z.of_nat t). lia.
Qed.

Lemma odd_coprime_pow2 j q : 0 <= j -> Z.coprime (2 ^ j) (2 * q + 1).
Proof.
  intros Hj. apply Z.coprime_pow_l; [exact Hj|].
  apply Z.coprime_Bezout. exists (- q), 1. lia.
Qed.

(** The 2-adic valuation of the sum is that of its length. *)
Lemma multiplier_sum_divide :
  forall m j, (0 < m)%nat -> 0 <= j ->
              (2 ^ j | multiplier_sum m) -> (2 ^ j | Z.of_nat m).
Proof.
  induction m as [m IH] using lt_wf_ind. intros j Hm Hj Hd.
  destruct (Z.eq_dec j 0) as [E|E].
  { subst j. apply Z.divide_1_l. }
  assert (Hpow : 2 ^ j = 2 * 2 ^ (j - 1)).
  { rewrite <- Z.pow_succ_r by lia. f_equal. lia. }
  destruct (Nat.Even_or_Odd m) as [[h Eh]|[h Eh]].
  - subst m. destruct (multiplier_sum_double h) as [q Hq].
    rewrite Hq, Hpow in Hd.
    replace (multiplier_sum h * (2 * (2 * q + 1)))
      with (2 * ((2 * q + 1) * multiplier_sum h)) in Hd by lia.
    apply Z.mul_divide_cancel_l in Hd; [|lia].
    apply Z.gauss in Hd; [|apply odd_coprime_pow2; lia].
    apply IH in Hd; [|lia|lia|lia].
    rewrite Hpow. replace (Z.of_nat (2 * h)) with (2 * Z.of_nat h) by lia.
    apply Z.mul_divide_mono_l. exact Hd.
  - exfalso. destruct (multiplier_sum_parity m) as [q Hq].
    rewrite Hpow, Hq in Hd. destruct Hd as [z Hz]. lia.
Qed.

Lemma congruent_divide a b n :
  0 < n -> a mod n = b mod n -> (n | a - b).
Proof.
  intros Hn E. exists (a / n - b / n).
  pose proof (Z.div_mod a n ltac:(lia)). pose proof (Z.div_mod b n ltac:(lia)).
  nia.
Qed.

(** Two steps of the generator less than [2^k] apart differ modulo [2^k]. *)
Lemma affine_iter_distinct k x s m :
  0 <= k -> (0 < m)%nat -> Z.of_nat m < 2 ^ k ->
  Nat.iter (m + s) affine x mod 2 ^ k <> Nat.iter s affine x mod 2 ^ k.
Proof.
  intros Hk Hm Hlt E.
  assert (Hp : 0 < 2 ^ k) by (apply Z.pow_pos_nonneg; lia).
  apply congruent_divide in E; [|exact Hp].
  rewrite Nat.iter_add in E.
  set (y := Nat.iter s affine x) in *.
  rewrite affine_iter in E.
  pose proof (multiplier_sum_closed m) as Hc.
  replace (1103515245 ^ Z.of_nat m * y + 12345 * multiplier_sum m - y)
    with ((2 * (551757622 * y + 6172) + 1) * multiplier_sum m) in E by nia.
  apply Z.gauss in E; [|apply odd_coprime_pow2; exact Hk].
  apply multiplier_sum_divide in E; [|exact Hm|exact Hk].
  apply Z.divide_pos_le in E; lia.
Qed.

Lemma lcg_affine t x : u32 (Nat.iter t lcg x) = u32 (Nat.iter t affine x).
Proof.
  induction t as [|t IH].
  - reflexivity.
  - rewrite !Nat.iter_succ. unfold lcg at 1. unfold affine at 1.
    unfold u32 in *. rewrite Z.mod_mod by lia.
    rewrite <- Z.add_mod_idemp_l, <- Z.mul_mod_idemp_l, IH by lia.
    rewrite Z.mul_mod_idemp_l, Z.add_mod_idemp_l by lia. reflexivity.
Qed.

Lemma masked_iter k t x :
  0 <= k < 32 ->
  Z.land (Nat.iter t lcg x) (2 ^ k - 1) = Nat.iter t affine x mod 2 ^ k.
Proof.
  intros Hk. rewrite Z.sub_1_r, <- Z.ones_equiv, Z.land_ones by lia.
  assert (Hp : 0 < 2 ^ k) by (apply Z.pow_pos_nonneg; lia).
  assert (Hd : (2 ^ k | 2 ^ 32)).
  { exists (2 ^ (32 - k)). rewrite <- Z.pow_add_r by lia. f_equal. lia. }
  rewrite <- (Z.mod_mod_divide (Nat.iter t lcg x) (2 ^ 32) (2 ^ k)) by exact Hd.
  rewrite <- (Z.mod_mod_divide (Nat.iter t affine x) (2 ^ 32) (2 ^ k))
    by exact Hd.
  f_equal. apply lcg_affine.
Qed.

Lemma lcg_indices_map n :
  forall count seed,
    lcg_indices n count seed
    = map (fun t => Z.land (Nat.iter (S t) lcg seed) (n - 1)) (seq 0 count).
Proof.
  induction count as [|c IH]; intros seed.
  - reflexivity.
  - cbn [lcg_indices seq map].
    change ((seed * 1103515245 + 12345) mod 2 ^ 32) with (lcg seed).
    f_equal. rewrite IH, <- seq_shift, map_map.
    apply map_ext. intros t. rewrite (Nat.iter_succ_r (S t)). reflexivity.
Qed.

Lemma lcg_indices_NoDup k count seed :
  0 <= k < 32 -> Z.of_nat count <= 2 ^ k ->
  NoDup (lcg_indices (2 ^ k) count seed).
Proof.
  intros Hk Hc. rewrite lcg_indices_map.
  apply NoDup_map_NoDup_ForallPairs; [|apply seq_NoDup].
  assert (Hlt : forall s t, (s < t < count)%nat ->
                  Z.land (Nat.iter (S s) lcg seed) (2 ^ k - 1)
                  <> Z.land (Nat.iter (S t) lcg seed) (2 ^ k - 1)).
  { intros s t Hst E. rewrite !masked_iter in E by exact Hk.
    symmetry in E. revert E.
    replace (S t) with ((t - s) + S s)%nat by lia.
    apply affine_iter_distinct; lia. }
  intros s t Hs Ht E. apply in_seq in Hs, Ht.
  destruct (Nat.lt_trichotomy s t) as [H|[H|H]]; [|exact H|].
  - exfalso. apply (Hlt s t); [lia | exact E].
  - exfalso. apply (Hlt t s); [lia | symmetry; exact E].
Qed.

Lemma lcg_indices_length n count seed :
  List.length (lcg_indices n count seed) = count.
Proof. rewrite lcg_indices_map, length_map. apply length_seq. Qed.

Lemma lcg_indices_permutation n seed :
  power_of_two n ->
  Permutation (lcg_indices n (Z.to_nat n) seed) (subscripts n).
Proof.
  intros Hp. pose proof (power_of_two_range n Hp) as Hr.
  destruct Hp as (k & Hk & En).
  apply NoDup_Permutation_bis.
  - subst n. apply lcg_indices_NoDup; [exact Hk | lia].
  - unfold subscripts. rewrite length_map, length_seq, lcg_indices_length.
    lia.
  - intros i Hi. rewrite lcg_indices_map in Hi.
    apply in_map_iff in Hi. destruct Hi as (t & Et & _).
    assert (Hb : 0 <= i < n).
    { subst i n. rewrite masked_iter by exact Hk.
      apply Z.mod_pos_bound. apply Z.pow_pos_nonneg; lia. }
    unfold subscripts. apply in_map_iff. exists (Z.to_nat i).
    split; [lia|]. apply in_seq. lia.
Qed.

(** X21 (lines 345-373): for a power-of-two buffer size, one pass of a
    random mode, read or write, visits every word of the buffer exactly
    once: the subscripts of the pass are a permutation of
    [0 .. buffer_size - 1], whatever the seed the pass starts from. *)
Theorem random_pass_visits_all buffer n read u r :
  power_of_two n ->
  exists visited,
    map index_of (accesses (pass (Z.to_nat n) u (step buffer n read true) r))
    = map index_of (accesses r) ++ visited
    /\ Permutation visited (subscripts n).
Proof.
  intros Hn. pose proof (power_of_two_range n Hn) as Hr.
  destruct (rnd_pass_indices buffer n read ltac:(lia) (Z.to_nat n) u r)
    as [Hi _].
  exists (lcg_indices n (Z.to_nat n) (seed_value r)).
  split; [exact Hi | apply lcg_indices_permutation, Hn].
Qed.

Lemma random_pass_visits_all_witness :
  exists visited,
    map index_of
        (accesses (pass (Z.to_nat 8) 0 (step 0x20000000 8 false true)
                        (mk_run blank_ram [] 0xDEADBEEF 0)))
    = map index_of (accesses (mk_run blank_ram [] 0xDEADBEEF 0)) ++ visited
    /\ Permutation visited (subscripts 8).
Proof.
  apply (random_pass_visits_all 0x20000000 8 false 0
           (mk_run blank_ram [] 0xDEADBEEF 0)).
  exists 3. split; [lia | reflexivity].
Defined.

(** *** The random read adds up the same words as the sequential read *)

Lemma sum_at_permutation m buffer l l' :
  Permutation l l' -> sum_at m buffer l = sum_at m buffer l'.
Proof.
  unfold sum_at. induction 1; cbn [fold_right]; lia.
Qed.

Lemma sum_at_subscripts m buffer :
  forall count first,
    sum_at m buffer (map (fun k => first + Z.of_nat k) (seq 0 count))
    = words_sum m buffer first count.
Proof.
  induction count as [|c IH]; intros first.
  - reflexivity.
  - cbn [seq map words_sum]. unfold sum_at in *. cbn [fold_right].
    rewrite Z.add_0_r. f_equal.
    rewrite <- seq_shift, map_map, <- IH.
    f_equal. apply map_ext. intros k. lia.
Qed.

Lemma rnd_read_pass buffer n :
  1 <= n <= 2 ^ 32 ->
  forall turns u r,
    ram (pass turns u (rnd_read_step buffer n) r) = ram r
    /\ u32 (value (pass turns u (rnd_read_step buffer n) r))
       = u32 (value r
              + sum_at (ram r) buffer (lcg_indices n turns (seed_value r))).
Proof.
  intros Hn.
  assert (Hm : u32 (n - 1) = n - 1) by (apply u32_id; lia).
  induction turns as [|k IH]; intros u r; cbn [pass lcg_indices].
  - unfold sum_at. cbn [fold_right]. rewrite Z.add_0_r. auto.
  - destruct (IH (u + 1) (rnd_read_step buffer n (s32 u) r)) as [Hr Hv].
    rewrite Hr, Hv. split; [reflexivity|].
    cbn [rnd_read_step ram value seed_value].
    unfold sum_at at 2. cbn [fold_right]. fold (sum_at (ram r) buffer).
    unfold mask_index. rewrite Hm.
    change ((seed_value r * 1103515245 + 12345) mod 2 ^ 32)
      with (lcg (seed_value r)).
    rewrite u32_add_l. f_equal. unfold sum_at. lia.
Qed.


Lemma rnd_read_total {globals : Globals} start finish buffer n scale st :
  power_of_two n ->
  s_value (snd (memory_test start finish buffer n scale true true st))
  = (Z.of_nat (Z.to_nat (loop_count scale))
     * words_sum (mem st) buffer 0 (Z.to_nat n)) mod 2 ^ 32.
Proof.
  intros Hp. pose proof (power_of_two_range n Hp) as Hr.
  unfold memory_test. cbn [snd s_value].
  rewrite <- (u32_id (value _)) by apply run_loops_value_range.
  unfold run_loops.
  change (step buffer n true true) with (rnd_read_step buffer n).
  assert (Hsum : forall seed,
             sum_at (mem st) buffer (lcg_indices n (Z.to_nat n) seed)
             = words_sum (mem st) buffer 0 (Z.to_nat n)).
  { intros seed. rewrite <- sum_at_subscripts.
    apply sum_at_permutation.
    exact (lcg_indices_permutation n seed Hp). }
  assert (H : forall passes,
             ram (Nat.iter passes (pass (Z.to_nat n) 0 (rnd_read_step buffer n))
                           (mk_run (mem st) [] 0xDEADBEEF 0)) = mem st
             /\ u32 (value (Nat.iter passes
                              (pass (Z.to_nat n) 0 (rnd_read_step buffer n))
                              (mk_run (mem st) [] 0xDEADBEEF 0)))
                = u32 (Z.of_nat passes
                       * words_sum (mem st) buffer 0 (Z.to_nat n))).
  { induction passes as [|p [Hm Hv]].
    - simpl. auto.
    - rewrite Nat.iter_succ.
      destruct (rnd_read_pass buffer n ltac:(lia) (Z.to_nat n) 0
                  (Nat.iter p (pass (Z.to_nat n) 0 (rnd_read_step buffer n))
                            (mk_run (mem st) [] 0xDEADBEEF 0))) as [Hm' Hv'].
      rewrite Hm', Hv', Hm, Hsum. split; [reflexivity|].
      rewrite <- u32_add_l, Hv, u32_add_l. f_equal. lia. }
  apply H.
Qed.

(** *** What the random write leaves *)

Lemma write_passes_value buffer n rnd m passes :
  value (Nat.iter passes (pass (Z.to_nat n) 0 (step buffer n false rnd))
                  (mk_run m [] 0xDEADBEEF 0))
  = u32 (Z.of_nat (passes * Z.to_nat n)).
Proof.
  induction passes as [|p IH].
  - reflexivity.
  - rewrite Nat.iter_succ, write_pass_value, IH, u32_add_l.
    + f_equal. lia.
    + rewrite IH. apply u32_range.
Qed.

Lemma passes_writable buffer n read rnd m passes :
  writable (ram (Nat.iter passes (pass (Z.to_nat n) 0 (step buffer n read rnd))
                          (mk_run m [] 0xDEADBEEF 0)))
  = writable m.
Proof.
  apply (iter_pass_invariant (fun r => writable (ram r) = writable m));
    [|reflexivity].
  intros i r Hr. rewrite <- Hr.
  destruct rnd, read; simpl; try reflexivity; apply writable_store.
Qed.

Lemma rnd_write_frame buffer n :
  1 <= n <= 2 ^ 32 ->
  forall turns u r a,
    (forall i, In i (lcg_indices n turns (seed_value r)) ->
               a <> element buffer i) ->
    cells (ram (pass turns u (rnd_write_step buffer n) r)) a = cells (ram r) a.
Proof.
  intros Hn.
  assert (Hm : u32 (n - 1) = n - 1) by (apply u32_id; lia).
  induction turns as [|k IH]; intros u r a Ha; cbn [pass].
  - reflexivity.
  - cbn [lcg_indices] in Ha.
    change ((seed_value r * 1103515245 + 12345) mod 2 ^ 32)
      with (lcg (seed_value r)) in Ha.
    rewrite IH.
    + cbn [rnd_write_step ram]. apply cells_store_other.
      unfold mask_index. rewrite Hm. apply Ha. left. reflexivity.
    + intros i Hi. apply Ha. right. exact Hi.
Qed.

Lemma rnd_write_pass buffer n :
  1 <= n <= 2 ^ 30 ->
  forall turns u r,
    NoDup (lcg_indices n turns (seed_value r)) ->
    (forall i, In i (lcg_indices n turns (seed_value r)) ->
               0 <= i < 2 ^ 30 /\ writable (ram r) (element buffer i) = true) ->
    forall t, (t < turns)%nat ->
      load (ram (pass turns u (rnd_write_step buffer n) r))
           (element buffer (nth t (lcg_indices n turns (seed_value r)) 0))
      = u32 (value r + Z.of_nat t).
Proof.
  intros Hn.
  assert (Hm : u32 (n - 1) = n - 1) by (apply u32_id; lia).
  induction turns as [|k IH]; intros u r Hnd Hw t Ht; [lia|].
  cbn [pass lcg_indices] in *.
  change ((seed_value r * 1103515245 + 12345) mod 2 ^ 32)
    with (lcg (seed_value r)) in *.
  set (i0 := Z.land (lcg (seed_value r)) (n - 1)) in *.
  set (r1 := rnd_write_step buffer n (s32 u) r).
  assert (Hs1 : seed_value r1 = lcg (seed_value r)) by reflexivity.
  assert (Hr1 : ram r1 = store (ram r) (element buffer i0) (value r)).
  { unfold r1, i0. cbn [rnd_write_step ram]. unfold mask_index.
    rewrite Hm. reflexivity. }
  inversion Hnd as [|? ? Hnotin Hnd']; subst.
  destruct t as [|t'].
  - cbn [nth]. rewrite Z.add_0_r. unfold load.
    rewrite (rnd_write_frame buffer n ltac:(lia)).
    + rewrite Hr1.
      change (u32 (cells (store (ram r) (element buffer i0) (value r))
                         (element buffer i0)))
        with (load (store (ram r) (element buffer i0) (value r))
                   (element buffer i0)).
      apply load_store_same. apply Hw. left. reflexivity.
    + rewrite Hs1. intros i Hi E. apply element_injective in E.
      * subst i. contradiction.
      * apply Hw. left. reflexivity.
      * apply Hw. right. exact Hi.
  - cbn [nth]. rewrite <- Hs1. rewrite IH.
    + unfold r1. cbn [rnd_write_step value]. rewrite u32_add_l.
      f_equal. lia.
    + rewrite Hs1. exact Hnd'.
    + rewrite Hs1. intros i Hi. destruct (Hw i (or_intror Hi)) as [Hb Hwi].
      split; [exact Hb|]. rewrite Hr1, writable_store. exact Hwi.
    + lia.
Qed.

(** X22 (lines 350-360, 378-387): for a power-of-two buffer size the
    random read leaves in [s_value] the same value as the sequential read:
    the sum of all the words of the buffer, once per outer turn, modulo
    2^32. *)
Theorem random_read_same_sum {globals : Globals} start finish start' finish' buffer n scale st :
  power_of_two n ->
  s_value (snd (memory_test start finish buffer n scale true true st))
  = s_value (snd (memory_test start' finish' buffer n scale true false st))
  /\ s_value (snd (memory_test start finish buffer n scale true true st))
     = (Z.of_nat (Z.to_nat (loop_count scale))
        * words_sum (mem st) buffer 0 (Z.to_nat n)) mod 2 ^ 32.
Proof.
  intros Hp. rewrite seq_read_total, rnd_read_total by exact Hp. auto.
Qed.

Lemma random_read_same_sum_witness :
  s_value (snd (memory_test (globals := sample_layout)
                            0 1 0x20000000 4 1 true true
                            (mk_state blank_ram 0 [])))
  = s_value (snd (memory_test (globals := sample_layout)
                              0 1 0x20000000 4 1 true false
                              (mk_state blank_ram 0 []))).
Proof.
  apply (random_read_same_sum (globals := sample_layout) 0 1 0 1 0x20000000 4 1 (mk_state blank_ram 0 [])).
  exists 2. split; [lia | reflexivity].
Defined.

(** X23 (lines 362-373): in a random-write call over a buffer of a
    power-of-two size [n] (at most 2^30 words), all writable and none of
    them the variable [s_value], with [loop_count] at least 1, the
    subscripts of the last pass, the last [n] of the call, are [order]:
    the generator's sequence after the [(loop_count - 1) * n] steps of the
    earlier passes.  It is a permutation of [0 .. n-1], and after the call
    the word visited at turn [t] of that pass holds the counter value
    [(loop_count - 1) * n + t] modulo 2^32: no word is left unwritten. *)
Theorem random_write_result {globals : Globals}
  start finish buffer n scale st :
  power_of_two n -> n <= 2 ^ 30 ->
  1 <= loop_count scale ->
  (forall j, 0 <= j < n -> writable (mem st) (element buffer j) = true) ->
  outside buffer n s_value_address ->
  let earlier := (Z.to_nat (loop_count scale - 1) * Z.to_nat n)%nat in
  let order := lcg_indices n (Z.to_nat n) (Nat.iter earlier lcg 0xDEADBEEF) in
  map index_of (accesses (run_loops buffer n scale false true (mem st)))
  = lcg_indices n earlier 0xDEADBEEF ++ order
  /\ Permutation order (subscripts n)
  /\ forall t, 0 <= t < n ->
       load (mem (snd (memory_test start finish buffer n scale false true st)))
            (element buffer (nth (Z.to_nat t) order 0))
       = ((loop_count scale - 1) * n + t) mod 2 ^ 32.
Proof.
  intros Hp Hmax Hl Hw Hout earlier order.
  pose proof (power_of_two_range n Hp) as Hr.
  set (L := loop_count scale) in *.
  set (r := Nat.iter (Z.to_nat (L - 1))
                     (pass (Z.to_nat n) 0 (step buffer n false true))
                     (mk_run (mem st) [] 0xDEADBEEF 0)).
  destruct (rnd_loops_indices buffer n false (Z.to_nat (L - 1))
              (mk_run (mem st) [] 0xDEADBEEF 0) ltac:(lia) eq_refl)
    as [Hidx Hseed].
  fold r in Hidx, Hseed. cbn [seed_value] in Hidx, Hseed. fold earlier in Hidx, Hseed.
  assert (Hloops : run_loops buffer n scale false true (mem st)
                   = pass (Z.to_nat n) 0 (step buffer n false true) r).
  { unfold run_loops. fold L.
    replace (Z.to_nat L) with (S (Z.to_nat (L - 1))) by lia.
    rewrite Nat.iter_succ. reflexivity. }
  pose proof (lcg_indices_permutation n (Nat.iter earlier lcg 0xDEADBEEF) Hp)
    as Hperm.
  fold order in Hperm.
  split; [|split; [exact Hperm|]].
  - rewrite Hloops.
    destruct (rnd_pass_indices buffer n false ltac:(lia) (Z.to_nat n) 0 r)
      as [Hi _].
    rewrite Hi, Hidx, Hseed. reflexivity.
  - intros t Ht.
    assert (Hin : In (nth (Z.to_nat t) order 0) (subscripts n)).
    { apply (Permutation_in _ Hperm). apply nth_In.
      rewrite (Permutation_length Hperm). unfold subscripts.
      rewrite length_map, length_seq. lia. }
    unfold subscripts in Hin. apply in_map_iff in Hin.
    destruct Hin as (k & Ek & Hk). apply in_seq in Hk.
    unfold memory_test. cbn [snd mem].
    rewrite load_store_other.
    2:{ intros E. apply (Hout (Z.of_nat k)); [lia|].
        rewrite Ek. symmetry. exact E. }
    rewrite Hloops.
    change (step buffer n false true) with (rnd_write_step buffer n) in *.
    pose proof (write_passes_value buffer n true (mem st) (Z.to_nat (L - 1)))
      as Hv.
    pose proof (passes_writable buffer n false true (mem st)
                  (Z.to_nat (L - 1))) as Hwr.
    change (step buffer n false true) with (rnd_write_step buffer n) in *.
    fold r in Hv, Hwr.
    unfold order. rewrite <- Hseed.
    rewrite (rnd_write_pass buffer n ltac:(lia)).
    + rewrite Hv, u32_add_l, Nat2Z.inj_mul, !Z2Nat.id by lia. reflexivity.
    + rewrite Hseed. fold order.
      apply (Permutation_NoDup (Permutation_sym Hperm)).
      unfold subscripts. apply NoDup_map_NoDup_ForallPairs; [|apply seq_NoDup].
      intros x y _ _ E. lia.
    + rewrite Hseed. fold order. intros i Hi.
      apply (Permutation_in _ Hperm) in Hi.
      unfold subscripts in Hi. apply in_map_iff in Hi.
      destruct Hi as (k' & Ek' & Hk'). apply in_seq in Hk'.
      split; [lia|]. rewrite Hwr. apply Hw. lia.
    + lia.
Qed.

Lemma random_write_result_witness :
  map index_of (accesses (run_loops 0x20000000 4 1 false true
                                    (mem (mk_state blank_ram 0 []))))
  = lcg_indices 4 (Z.to_nat (loop_count 1 - 1) * Z.to_nat 4) 0xDEADBEEF
    ++ lcg_indices 4 (Z.to_nat 4)
         (Nat.iter (Z.to_nat (loop_count 1 - 1) * Z.to_nat 4) lcg 0xDEADBEEF)
  /\ Permutation
       (lcg_indices 4 (Z.to_nat 4)
          (Nat.iter (Z.to_nat (loop_count 1 - 1) * Z.to_nat 4) lcg 0xDEADBEEF))
       (subscripts 4)
  /\ forall t, 0 <= t < 4 ->
       load (mem (snd (memory_test (globals := sample_layout)
                                   0 1 0x20000000 4 1 false true
                                   (mk_state blank_ram 0 []))))
            (element 0x20000000
               (nth (Z.to_nat t)
                    (lcg_indices 4 (Z.to_nat 4)
                       (Nat.iter (Z.to_nat (loop_count 1 - 1) * Z.to_nat 4)
                                 lcg 0xDEADBEEF)) 0))
       = ((loop_count 1 - 1) * 4 + t) mod 2 ^ 32.
Proof.
  apply (random_write_result (globals := sample_layout) 0 1 0x20000000 4 1
           (mk_state blank_ram 0 [])).
  - exists 2. split; [lia | reflexivity].
  - lia.
  - vm_compute. discriminate.
  - intros j Hj. reflexivity.
  - intros j Hj. unfold element, u32. rewrite Z.mod_small by lia.
    cbn [s_value_address sample_layout]. lia.
Defined.

End BenchMore.
